(** * stisblazefix: blaze-shift correction of STIS echelle spectra

    A shallow embedding of [stisblazefix.py] and the properties of its
    numerical core: [fluxcorrect], [residcalc], [residfunc], [findshift]
    and the write-back of [fluxfix].

    Conventions of the embedding.
    - numpy's [float64] arithmetic is an interface, [Arith]; it is read in
      IEEE binary64 (Rocq's primitive floats, instance [ieee]) when the code
      is run on concrete data, and in exact real arithmetic (instance
      [exact]) for identities that hold up to rounding.
    - Python numbers are [pyval]: the sums of [residcalc] start as the
      Python integer [0] and become numpy scalars on the first addition,
      and the two kinds divide by zero differently.
    - Python exceptions are the [Raise] results of [res].
    - numpy arrays live in a heap; a table column is a location, and its
      entries are taken as float64.
    - [scipy.interpolate.interp1d], [numpy.searchsorted], [numpy.where] and
      [lmfit.minimize] are library code: the first three are modelled after
      their documented behaviour, the last one is a parameter.
    - the source writes [if !iterate:] (line 244), [if badflags = 0:]
      (line 55) and [iterate=True **kwargs] (line 255); they are read as
      [if not iterate:], [if badflags == 0:] and [iterate=True, **kwargs]. *)

From Stdlib Require Import ZArith Floats Reals Lra Lia Bool.
From stdpp Require Import base list strings.

(** ** Python exceptions *)

Inductive pyexc :=
  | ZeroDivisionError
  | IndexError
  | ValueError
  | TypeError
  | NameError
  | KeyError.

Inductive res (A : Type) :=
  | Ok (a : A)
  | Raise (e : pyexc).
Arguments Ok {A} a.
Arguments Raise {A} e.

Global Instance res_ret : MRet res := @Ok.
Global Instance res_bind : MBind res :=
  λ A B f m, match m with Ok a => f a | Raise e => Raise e end.
Global Instance res_fmap : FMap res :=
  λ A B f m, match m with Ok a => Ok (f a) | Raise e => Raise e end.

(** [mapM] over a list, stopping at the first exception. *)
Fixpoint res_mapM {A B} (f : A → res B) (l : list A) : res (list B) :=
  match l with
  | [] => Ok []
  | a :: l' => b ← f a; bs ← res_mapM f l'; Ok (b :: bs)
  end.

(** [i = start; while i < start + count: s = body(i, s); i += 1] *)
Fixpoint for_range {St} (count : nat) (start : Z) (body : Z → St → res St)
  (s : St) : res St :=
  match count with
  | O => Ok s
  | S n => s' ← body start s; for_range n (start + 1)%Z body s'
  end.

(** ** float64 arithmetic *)

Class Arith (F : Type) := {
  fadd : F → F → F;
  fsub : F → F → F;
  fmul : F → F → F;
  fdiv : F → F → F;
  fabs : F → F;
  fsqrt : F → F;
  fltb : F → F → bool;
  fleb : F → F → bool;
  feqb : F → F → bool;
  fisnan : F → bool;
  of_int : Z → F
}.

(** Conversion of a Python or int64 integer to binary64 (exact below 2^53). *)
Definition float_of_Z (z : Z) : float :=
  match z with
  | Z0 => PrimFloat.zero
  | Zpos _ => PrimFloat.of_uint63 (Uint63.of_Z z)
  | Zneg p => PrimFloat.opp (PrimFloat.of_uint63 (Uint63.of_Z (Zpos p)))
  end.

(** IEEE binary64: what numpy computes. Division by zero gives an infinity
    or a NaN, never an exception. *)
Global Instance ieee : Arith float := {|
  fadd := PrimFloat.add;
  fsub := PrimFloat.sub;
  fmul := PrimFloat.mul;
  fdiv := PrimFloat.div;
  fabs := PrimFloat.abs;
  fsqrt := PrimFloat.sqrt;
  fltb := PrimFloat.ltb;
  fleb := PrimFloat.leb;
  feqb := PrimFloat.eqb;
  fisnan := PrimFloat.is_nan;
  of_int := float_of_Z
|}.

(** Exact real arithmetic: the same programs without rounding and without
    non-finite values. *)
Global Instance exact : Arith R := {|
  fadd := Rplus;
  fsub := Rminus;
  fmul := Rmult;
  fdiv := Rdiv;
  fabs := Rabs;
  fsqrt := sqrt;
  fltb := λ x y, if Rlt_dec x y then true else false;
  fleb := λ x y, if Rle_dec x y then true else false;
  feqb := λ x y, if Req_dec_T x y then true else false;
  fisnan := λ _, false;
  of_int := IZR
|}.

(** The order numpy sorts and searches floats by: [<] with NaN last. *)
Definition np_less {F} `{Arith F} (a v : F) : bool :=
  fltb a v || (fisnan v && negb (fisnan a)).

(** ** Python numbers *)

Inductive pyval (F : Type) :=
  | PyInt (z : Z)
  | PyFloat (x : F)
  | NpFloat (x : F).
Arguments PyInt {F} z.
Arguments PyFloat {F} x.
Arguments NpFloat {F} x.

Section PyArith.
Context {F : Type} `{Arith F}.

(** The value as a float64, as stored into a float array. *)
Definition to_F (v : pyval F) : F :=
  match v with
  | PyInt z => of_int z
  | PyFloat x => x
  | NpFloat x => x
  end.

Definition is_np (v : pyval F) : bool :=
  match v with NpFloat _ => true | _ => false end.

Definition py_is_zero (v : pyval F) : bool :=
  match v with
  | PyInt z => (z =? 0)%Z
  | PyFloat x => feqb x (of_int 0)
  | NpFloat x => feqb x (of_int 0)
  end.

(** A binary operator: integers stay integers, a numpy operand makes the
    result a numpy scalar, otherwise the result is a Python float. *)
Definition py_binop (zop : Z → Z → Z) (fop : F → F → F) (u v : pyval F)
  : pyval F :=
  match u, v with
  | PyInt a, PyInt b => PyInt (zop a b)
  | _, _ =>
      if is_np u || is_np v then NpFloat (fop (to_F u) (to_F v))
      else PyFloat (fop (to_F u) (to_F v))
  end.

Definition py_add := py_binop Z.add fadd.
Definition py_sub := py_binop Z.sub fsub.
Definition py_mul := py_binop Z.mul fmul.

(** [v ** 2], the product of [v] with itself. *)
Definition py_pow2 (v : pyval F) : pyval F := py_mul v v.

(** [abs(v)] *)
Definition py_abs (v : pyval F) : pyval F :=
  match v with
  | PyInt z => PyInt (Z.abs z)
  | PyFloat x => PyFloat (fabs x)
  | NpFloat x => NpFloat (fabs x)
  end.

(** [np.sqrt(v)]: always a numpy scalar. *)
Definition np_sqrt (v : pyval F) : pyval F := NpFloat (fsqrt (to_F v)).

(** [u / v]: numpy scalars follow IEEE; Python's own integers and floats
    raise [ZeroDivisionError] on a zero divisor. *)
Definition py_truediv (u v : pyval F) : res (pyval F) :=
  if is_np u || is_np v then Ok (NpFloat (fdiv (to_F u) (to_F v)))
  else if py_is_zero v then Raise ZeroDivisionError
  else Ok (PyFloat (fdiv (to_F u) (to_F v))).

(** [a[i]] on a one-dimensional array, negative indices counting from the
    end. *)
Definition py_getitem {A} (a : list A) (i : Z) : res A :=
  let n := Z.of_nat (length a) in
  let j := if (i <? 0)%Z then (n + i)%Z else i in
  if ((0 <=? j) && (j <? n))%Z then
    match a !! Z.to_nat j with
    | Some x => Ok x
    | None => Raise IndexError
    end
  else Raise IndexError.

(** [a[idx]] for an array of indices. *)
Definition take_idx {A} (a : list A) (idx : list nat) : res (list A) :=
  res_mapM (λ k, py_getitem a (Z.of_nat k)) idx.

(** [np.where(c)[0]]: the indices at which [c] holds, ascending. *)
Fixpoint where_from (i : nat) (c : list bool) : list nat :=
  match c with
  | [] => []
  | b :: c' => if b then i :: where_from (S i) c' else where_from (S i) c'
  end.
Definition np_where (c : list bool) : list nat := where_from 0 c.

(** ** scipy.interpolate.interp1d, linear, fill_value='extrapolate' *)

(** [np.argsort] then reordering of both arrays: a stable insertion of
    each sample into the sorted rest. *)
Fixpoint insert_pt (p : F * F) (l : list (F * F)) : list (F * F) :=
  match l with
  | [] => [p]
  | q :: l' => if np_less (fst q) (fst p) then q :: insert_pt p l'
               else p :: q :: l'
  end.
Fixpoint sort_pts (l : list (F * F)) : list (F * F) :=
  match l with
  | [] => []
  | p :: l' => insert_pt p (sort_pts l')
  end.

Record interp := { ix : list F; iy : list F }.

(** The constructor: samples sorted by [x]; fewer than two is a
    [ValueError], as are arrays of different lengths. *)
Definition mk_interp (x y : list F) : interp :=
  let pts := sort_pts (zip x y) in
  {| ix := pts.*1; iy := pts.*2 |}.

Definition interp1d (x y : list F) : res interp :=
  if negb (length x =? length y) then Raise ValueError
  else if length x <? 2 then Raise ValueError
  else Ok (mk_interp x y).

(** [np.searchsorted(xs, v)] (side left) on a sorted array: the first
    index whose element is not below [v]. *)
Fixpoint searchsorted (xs : list F) (v : F) : nat :=
  match xs with
  | [] => 0
  | a :: xs' => if np_less a v then S (searchsorted xs' v) else 0
  end.

(** [x.clip(lo, hi)] *)
Definition clip (i lo hi : nat) : nat := Nat.min (Nat.max i lo) hi.

(** The straight line through [(x_lo, y_lo)] and [(x_hi, y_hi)] at [q],
    as [_call_linear] writes it. *)
Definition line_at (x_lo y_lo x_hi y_hi q : F) : F :=
  let slope := fdiv (fsub y_hi y_lo) (fsub x_hi x_lo) in
  fadd (fmul slope (fsub q x_lo)) y_lo.

(** Evaluation at one query point ([_call_linear]; with extrapolation the
    bounds are not checked). *)
Definition interp_call (f : interp) (q : F) : F :=
  let i := clip (searchsorted (ix f) q) 1 (length (ix f) - 1) in
  let lo := i - 1 in
  let hi := i in
  line_at (nth lo (ix f) (of_int 0)) (nth lo (iy f) (of_int 0))
          (nth hi (ix f) (of_int 0)) (nth hi (iy f) (of_int 0)) q.

End PyArith.

Arguments interp : clear implicits.

(** ** numpy arrays of two dimensions *)

Record ndarray (F : Type) := { ncols : nat; rows : list (list F) }.
Arguments ncols {F} _.
Arguments rows {F} _.
Arguments Build_ndarray {F} _ _.

Section Arrays.
Context {F : Type} `{Arith F}.

(** Every row has the width the array declares. *)
Definition wf_array (a : ndarray F) : Prop :=
  Forall (λ r, length r = ncols a) (rows a).

(** [np.shape(a)] *)
Definition np_shape (a : ndarray F) : nat * nat := (length (rows a), ncols a).

(** [np.zeros(shape)] *)
Definition np_zeros (shape : nat * nat) : ndarray F :=
  {| ncols := shape.2; rows := replicate shape.1 (replicate shape.2 (of_int 0)) |}.

(** [np.arange(n)]: the int64 pixel numbers as the floats they convert to
    without rounding. *)
Definition np_arange (n : nat) : list F :=
  fmap (λ k, of_int (Z.of_nat k)) (seq 0 n).

(** [np.divide(a, b)] for arrays of one shape (the columns of one table);
    other shapes are a [ValueError] here, numpy's broadcasting apart. *)
Definition np_divide (a b : ndarray F) : res (ndarray F) :=
  if (length (rows a) =? length (rows b)) && (ncols a =? ncols b) then
    Ok {| ncols := ncols a; rows := zip_with (zip_with fdiv) (rows a) (rows b) |}
  else Raise ValueError.

(** [a[i]] *)
Definition getrow (a : ndarray F) (i : nat) : res (list F) :=
  match rows a !! i with
  | Some r => Ok r
  | None => Raise IndexError
  end.

(** [a[i] = r] *)
Definition set_row (a : ndarray F) (i : nat) (r : list F) : res (ndarray F) :=
  if negb (i <? length (rows a)) then Raise IndexError
  else if negb (length r =? ncols a) then Raise ValueError
  else Ok {| ncols := ncols a; rows := <[i := r]> (rows a) |}.

End Arrays.

(** ** The heap of arrays *)

Definition loc := nat.

(** A computation on the heap that may raise. *)
Definition M (F A : Type) : Type := list (ndarray F) → res (A * list (ndarray F)).

Global Instance M_ret {F} : MRet (M F) := λ A a h, Ok (a, h).
Global Instance M_bind {F} : MBind (M F) :=
  λ A B f m h, match m h with Ok (a, h') => f a h' | Raise e => Raise e end.

(** An [x1d] table extension: its number of rows (orders) and the arrays of
    the columns the module reads. *)
Record table := {
  nrows : nat;
  c_wavelength : loc;
  c_flux : loc;
  c_error : loc;
  c_net : loc;
  c_net_error : loc
}.

Section Heap.
Context {F : Type} `{Arith F}.

(** A pure, possibly raising step inside a heap computation. *)
Definition lift {A} (r : res A) : M F A :=
  λ h, match r with Ok a => Ok (a, h) | Raise e => Raise e end.

(** The array a reference points to; [filedata['name']] of a column the
    table does not hold is a [KeyError]. *)
Definition load (l : loc) : M F (ndarray F) :=
  λ h, match h !! l with Some a => Ok (a, h) | None => Raise KeyError end.

(** A new array object. *)
Definition alloc (a : ndarray F) : M F loc :=
  λ h, Ok (length h, h ++ [a]).

(** Overwriting the array behind a reference, in place. *)
Definition store (l : loc) (a : ndarray F) : M F unit :=
  λ h, if l <? length h then Ok ((), <[l := a]> h) else Raise KeyError.

(** [order = start; while order < start + count: body(order); order += 1] *)
Fixpoint m_for (count : nat) (start : nat) (body : nat → M F unit) : M F unit :=
  match count with
  | O => mret ()
  | S n => _ ← body start; m_for n (S start) body
  end.

(** ** fluxcorrect (lines 61-82) *)

(** One turn of the loop over the orders (lines 77-78). *)
Definition shift_order (origblaze newblaze : loc) (pixnos pixshift : list F)
  (order : nat) : M F unit :=
  ob ← load origblaze;
  row ← lift (getrow ob order);
  f ← lift (interp1d pixnos row);
  s ← lift (py_getitem pixshift (Z.of_nat order));
  nb ← load newblaze;
  nb' ← lift (set_row nb order (fmap (λ p, interp_call f (fsub p s)) pixnos));
  store newblaze nb'.

Definition fluxcorrect (filedata : table) (pixshift : list F) : M F (loc * loc) :=
  net ← load (c_net filedata);
  flux ← load (c_flux filedata);
  ob ← lift (np_divide net flux);
  origblaze ← alloc ob;
  let shape := np_shape ob in
  newblaze ← alloc (np_zeros shape);
  let pixnos := np_arange shape.2 in
  _ ← m_for shape.1 0 (shift_order origblaze newblaze pixnos pixshift);
  net ← load (c_net filedata);
  nb ← load newblaze;
  nf ← lift (np_divide net nb);
  newflux ← alloc nf;
  net_error ← load (c_net_error filedata);
  nb ← load newblaze;
  ne ← lift (np_divide net_error nb);
  newerr ← alloc ne;
  mret (newflux, newerr).

(** ** residcalc (lines 84-136) *)

Record sums := {
  fluxsum0 : pyval F;
  fluxsum1 : pyval F;
  errsum0 : pyval F;
  errsum1 : pyval F
}.

(** Lines 118-119. *)
Definition sums_init : sums :=
  {| fluxsum0 := PyInt 0; fluxsum1 := PyInt 0;
     errsum0 := PyInt 0; errsum1 := PyInt 0 |}.

(** Lines 123-126. *)
Definition sum_step (f0 f1 g0 g1 : list F) (i : Z) (s : sums) : res sums :=
  a ← py_getitem f0 i;
  b ← py_getitem f1 i;
  c ← py_getitem g0 i;
  d ← py_getitem g1 i;
  Ok {| fluxsum0 := py_add (fluxsum0 s) (NpFloat a);
        fluxsum1 := py_add (fluxsum1 s) (NpFloat b);
        errsum0 := py_add (errsum0 s) (py_pow2 (NpFloat c));
        errsum1 := py_add (errsum1 s) (py_pow2 (NpFloat d)) |}.

(** Lines 121-127: [i] runs from [ntrim] while [i < n - ntrim], [n] being
    [np.shape(overlap)[1]]. *)
Definition trimmed_sums (n : nat) (f0 f1 g0 g1 : list F) (ntrim : Z) : res sums :=
  for_range (Z.to_nat (Z.of_nat n - ntrim - ntrim)) ntrim
    (sum_step f0 f1 g0 g1) sums_init.

(** The body of [try] (lines 129-130). *)
Definition ratio_resid (s : sums) : res (pyval F * pyval F) :=
  q ← py_truediv (fluxsum0 s) (fluxsum1 s);
  let resid := py_sub (PyInt 1) q in
  t0 ← py_truediv (errsum0 s) (py_pow2 (fluxsum0 s));
  t1 ← py_truediv (errsum1 s) (py_pow2 (fluxsum1 s));
  Ok (resid, py_mul (py_abs (py_sub (PyInt 1) resid)) (np_sqrt (py_add t0 t1))).

(** Lines 128-133: [except ZeroDivisionError] sets the fallback. *)
Definition resid_or_fallback (s : sums) : res (pyval F * pyval F) :=
  match ratio_resid s with
  | Raise ZeroDivisionError => Ok (PyInt 0, PyInt 1)
  | r => r
  end.

(** Line 112: the pixels of order [i] at or below the last wavelength of
    order [i+1]. *)
Definition overlap_of (w0 : list F) (last : F) : list nat :=
  np_where (fmap (λ w, fleb w last) w0).

(** One turn of the loop over the pairs of orders, up to the sums
    (lines 110-127). *)
Definition pair_sums (wavelength flux err : ndarray F) (ntrim : Z)
  (order : nat) : res sums :=
  w1 ← getrow wavelength (order + 1);
  f1r ← getrow flux (order + 1);
  f ← interp1d w1 f1r;
  e1r ← getrow err (order + 1);
  g ← interp1d w1 e1r;
  w0 ← getrow wavelength order;
  last ← py_getitem w1 (-1);
  let overlap := overlap_of w0 last in
  f0r ← getrow flux order;
  f0 ← take_idx f0r overlap;
  wq ← take_idx w0 overlap;
  let f1 := fmap (interp_call f) wq in
  e0r ← getrow err order;
  g0 ← take_idx e0r overlap;
  let g1 := fmap (interp_call g) wq in
  trimmed_sums (length overlap) f0 f1 g0 g1 ntrim.

(** The whole turn (lines 110-134): the values stored into
    [resids[order]] and [residerr[order]]. *)
Definition resid_order (wavelength flux err : ndarray F) (ntrim : Z)
  (order : nat) : res (F * F) :=
  s ← pair_sums wavelength flux err ntrim order;
  r ← resid_or_fallback s;
  Ok (to_F r.1, to_F r.2).

(** The loop over the pairs, filling [resids] and [residerr]. *)
Fixpoint resid_loop (count : nat) (order : nat)
  (wavelength flux err : ndarray F) (ntrim : Z) (acc : list F * list F)
  : res (list F * list F) :=
  match count with
  | O => Ok acc
  | S n =>
      r ← resid_order wavelength flux err ntrim order;
      resid_loop n (S order) wavelength flux err ntrim
        (<[order := r.1]> acc.1, <[order := r.2]> acc.2)
  end.

(** On the arrays themselves. [np.zeros(shape[0] - 1)] of an array with no
    rows is a [ValueError]. *)
Definition residcalc_arrays (wavelength flux err : ndarray F) (ntrim : Z)
  : res (list F * list F) :=
  let n := (np_shape flux).1 in
  if n =? 0 then Raise ValueError
  else
    let resids := replicate (n - 1) (of_int 0) in
    let residerr := replicate (n - 1) (of_int 0) in
    resid_loop (n - 1) 0 wavelength flux err ntrim (resids, residerr).

Definition residcalc (filedata : table) (flux err : option loc) (ntrim : Z)
  : M F (list F * list F) :=
  fl ← load (default (c_flux filedata) flux);
  er ← load (default (c_error filedata) err);
  wavelength ← load (c_wavelength filedata);
  lift (residcalc_arrays wavelength fl er ntrim).

End Heap.

Arguments sums : clear implicits.

(** ** The fit: residfunc, findshift (lines 208-252) *)

(** An lmfit parameter: its value, its standard error ([None] until a fit
    estimates one) and whether the fit may vary it. *)
Record param (F : Type) := {
  value : F;
  stderr : option F;
  vary : bool
}.
Arguments value {F} _.
Arguments stderr {F} _.
Arguments vary {F} _.
Arguments Build_param {F} _ _ _.

(** The [Parameters] of the model [pixshift = a + b*x]. *)
Record params (F : Type) := {
  par_a : param F;
  par_b : param F
}.
Arguments par_a {F} _.
Arguments par_b {F} _.
Arguments Build_params {F} _ _.

(** What [generateplot] draws in the residual panel. *)
Record figure (F : Type) := {
  oldresids : list F;
  olderr : list F;
  newresids : list F;
  newresiderr : list F
}.
Arguments oldresids {F} _.
Arguments olderr {F} _.
Arguments newresids {F} _.
Arguments newresiderr {F} _.
Arguments Build_figure {F} _ _ _ _.

(** The arrays of a table as [writeto] saves them. *)
Record table_data (F : Type) := {
  d_wavelength : ndarray F;
  d_flux : ndarray F;
  d_error : ndarray F;
  d_net : ndarray F;
  d_net_error : ndarray F
}.
Arguments d_wavelength {F} _.
Arguments d_flux {F} _.
Arguments d_error {F} _.
Arguments d_net {F} _.
Arguments d_net_error {F} _.
Arguments Build_table_data {F} _ _ _ _ _.

(** The names [fluxfix] still has bound when the loop over the extensions
    is over. *)
Record bindings := {
  v_filedata : table;
  v_newflux : loc;
  v_newerr : loc
}.

Section Fit.
Context {F : Type} `{Arith F}.

(** [lmfit.minimize(residfunc, params, args=...)]: the objective and the
    starting parameters in, the [params] of the result out. The objective
    is handed over as a function: its arrays are garbage once it
    returns. *)
Variable minimize : (params F → res (list F)) → params F → res (params F).

(** [a + b*x] over the integer array [x]. *)
Definition linear_shift (a b : F) (x : list Z) : list F :=
  fmap (λ k, fadd a (fmul b (of_int k))) x.

(** [np.arange(n)] as the int64 array it is. *)
Definition int_arange (n : nat) : list Z := fmap Z.of_nat (seq 0 n).

Definition residfunc (pars : params F) (x : list Z) (filedata : table)
  : M F (list F) :=
  let a := value (par_a pars) in
  let b := value (par_b pars) in
  let pixshift := linear_shift a b x in
  new ← fluxcorrect filedata pixshift;
  temp ← residcalc filedata (Some new.1) (Some new.2) 5;
  mret (zip_with (λ r e, fabs (fdiv r e)) temp.1 temp.2).

(** [np.sqrt(a[1]**2 + (x * b[1])**2)] *)
Definition shift_error (ea eb : F) (x : list Z) : list F :=
  fmap (λ k, fsqrt (fadd (fmul ea ea)
                        (fmul (fmul (of_int k) eb) (fmul (of_int k) eb)))) x.

(** A standard error that is [None] cannot be squared. *)
Definition need_number (e : option F) : res F :=
  match e with
  | Some x => Ok x
  | None => Raise TypeError
  end.

(** Lines 241-245: the two parameters at the guess, held fixed when
    [iterate] is false. *)
Definition start_params (guess : F * F) (iterate : bool) : params F :=
  let pa := {| value := guess.1; stderr := None; vary := true |} in
  let pb := {| value := guess.2; stderr := None; vary := true |} in
  if negb iterate then
    {| par_a := {| value := value pa; stderr := stderr pa; vary := false |};
       par_b := {| value := value pb; stderr := stderr pb; vary := false |} |}
  else {| par_a := pa; par_b := pb |}.

(** [residfunc] with its [args], as the minimizer calls it, in the heap of
    the call. *)
Definition objective (x : list Z) (filedata : table) (h : list (ndarray F))
  (p : params F) : res (list F) :=
  fst <$> residfunc p x filedata h.

Definition findshift (filedata : table) (guess : F * F) (iterate : bool)
  : M F (list F * list F * ((F * F) * (F * F))) :=
  λ h,
    let x := int_arange (nrows filedata) in
    let pars := start_params guess iterate in
    min ← minimize (objective x filedata h) pars;
    let a := (value (par_a min), stderr (par_a min)) in
    let b := (value (par_b min), stderr (par_b min)) in
    let pixshift := linear_shift a.1 b.1 x in
    ea ← need_number a.2;
    eb ← need_number b.2;
    Ok ((pixshift, shift_error ea eb x, ((a.1, ea), (b.1, eb))), h).

(** ** generateplot (lines 138-206): the residuals it computes; the
    drawing itself is no part of the model. *)
Definition generateplot (origdata : table) (newflux newerr : loc)
  (pixshift : list F) (oldr olde : option (list F)) : M F (figure F) :=
  _ ← load (c_flux origdata);
  _ ← load (c_wavelength origdata);
  old ←
    match oldr, olde with
    | Some r, Some e => mret (r, e)
    | _, _ =>
        o ← residcalc origdata None None 5;
        mret (default o.1 oldr, default o.2 olde)
    end;
  new ← residcalc origdata (Some newflux) (Some newerr) 5;
  mret {| oldresids := old.1; olderr := old.2;
          newresids := new.1; newresiderr := new.2 |}.

(** ** fluxfix (lines 255-303), one input file *)

(** Lines 278-287: one extension. The call of [findshift] passes no
    [iterate], so the default [True] applies. *)
Definition fluxfix_ext (guess : F * F) (filedata : table) : M F bindings :=
  shift ← findshift filedata guess true;
  let pixshift := shift.1.1 in
  new ← fluxcorrect filedata pixshift;
  _ ← generateplot filedata new.1 new.2 pixshift None None;
  mret {| v_filedata := filedata; v_newflux := new.1; v_newerr := new.2 |}.

(** Lines 277-287: the loop over the extensions [file[1]], [file[2]], ...;
    each turn rebinds [filedata], [newflux] and [newerr]. *)
Fixpoint ext_loop (guess : F * F) (exts : list table) (vars : option bindings)
  : M F (option bindings) :=
  match exts with
  | [] => mret vars
  | filedata :: rest =>
      v ← fluxfix_ext guess filedata;
      ext_loop guess rest (Some v)
  end.

(** [filedata[name] = value]: the column is overwritten in place. *)
Definition assign_column (l : loc) (v : ndarray F) : M F unit :=
  old ← load l;
  if (length (rows old) =? length (rows v)) && (ncols old =? ncols v)
  then store l v
  else lift (Raise ValueError).

Definition read_table (t : table) : M F (table_data F) :=
  w ← load (c_wavelength t);
  f ← load (c_flux t);
  e ← load (c_error t);
  n ← load (c_net t);
  ne ← load (c_net_error t);
  mret {| d_wavelength := w; d_flux := f; d_error := e;
          d_net := n; d_net_error := ne |}.

(** [file.writeto(...)]: every extension with the data it holds now. *)
Fixpoint writeto (exts : list table) : M F (list (table_data F)) :=
  match exts with
  | [] => mret []
  | t :: rest => d ← read_table t; ds ← writeto rest; mret (d :: ds)
  end.

(** The body of [for filename in files]: [exts] are the table extensions
    of the opened file, [vars] what earlier files left bound. Returns the
    bindings and the extensions as written to the [x1f] file. *)
Definition fluxfix_file (guess : F * F) (exts : list table)
  (vars : option bindings) : M F (option bindings * list (table_data F)) :=
  vars ← ext_loop guess exts vars;
  match vars with
  | None => lift (Raise NameError)
  | Some v =>
      nf ← load (v_newflux v);
      _ ← assign_column (c_flux (v_filedata v)) nf;
      ne ← load (v_newerr v);
      _ ← assign_column (c_error (v_filedata v)) ne;
      out ← writeto exts;
      mret (Some v, out)
  end.

(** Lines 273-302: the files one after the other. A name one file has
    bound is still bound when the next file is read. *)
Fixpoint fluxfix_files (guess : F * F) (files : list (list table))
  (vars : option bindings) : M F (list (list (table_data F))) :=
  match files with
  | [] => mret []
  | exts :: rest =>
      r ← fluxfix_file guess exts vars;
      outs ← fluxfix_files guess rest r.1;
      mret (r.2 :: outs)
  end.

(** Lines 270-272: the default guess is [(1, 0.5)]. The parameter
    [iterate] of [fluxfix] is never passed on. *)
Definition fluxfix (files : list (list table)) (guess : option (F * F))
  (iterate : bool) : M F (list (list (table_data F))) :=
  fluxfix_files (default (of_int 1, fdiv (of_int 1) (of_int 2)) guess) files None.

End Fit.

(** ** datamask (lines 40-58) *)

(** Line 40: the data-quality flags of the STIS data handbook. *)
Definition stis_flags : list (string * Z) :=
  [("Reed-Solomon", 1); ("fill_vals", 2); ("detector_pix", 4);
   ("occulting_bar", 8); ("high_dark", 16); ("large_blemish", 32);
   ("vignetted", 64); ("overscan", 128); ("saturated", 256);
   ("ref_pixel", 512); ("small_blemish", 1024); ("background", 2048);
   ("bad_input", 4096); ("cosmic_ray", 8192); ("negative", 16384)]%string%Z.

(** Line 43. *)
Definition default_flags : list Z := [32; 64]%Z.

(** Lines 52-54: the flags, added up. *)
Definition badflags_of (flags : list Z) : Z := fold_left Z.add flags 0%Z.

(** [np.where] of a two-dimensional array: the (row, column) positions of
    the entries that hold, row by row. *)
Fixpoint where2_from (i : nat) (c : list (list bool)) : list (nat * nat) :=
  match c with
  | [] => []
  | r :: c' => ((λ j, (i, j)) <$> np_where r) ++ where2_from (S i) c'
  end.

(** Line 57: [index = np.where(dq & badflags)], the pixels at which the
    bitwise and is not zero. The data-quality values are integers in two's
    complement, as [Z.land] reads them. *)
Definition datamask_index (dq : list (list Z)) (flags : list Z)
  : list (nat * nat) :=
  where2_from 0
    ((λ row : list Z,
        (λ d, negb (Z.land d (badflags_of flags) =? 0)%Z) <$> row) <$> dq).

(** The function as far as it is written: what it prints. It stops at
    [#continue fixing], uses neither [array] nor [index] and returns
    [None]. *)
Definition datamask {F} (array : ndarray F) (dq : list (list Z))
  (flags : list Z) : list string :=
  let badflags := badflags_of flags in
  let index := datamask_index dq flags in
  if (badflags =? 0)%Z then ["Warning: no dq flags selected."%string] else [].

(** ** The spectrum panels of generateplot (lines 171-187) *)

(** A slice bound as Python reads it: a negative bound counts from the
    end, and the result is kept within [0, n]. *)
Definition slice_bound (n : nat) (i : Z) : nat :=
  let j := if (i <? 0)%Z then (Z.of_nat n + i)%Z else i in
  Z.to_nat (Z.min (Z.max j 0) (Z.of_nat n)).

(** [a[start:stop]] *)
Definition py_slice {A} (a : list A) (start stop : Z) : list A :=
  let lo := slice_bound (length a) start in
  let hi := slice_bound (length a) stop in
  take (hi - lo) (drop lo a).

(** What lines 174 and 183 draw of one order: [row[ntrim:-(ntrim+1)]]. *)
Definition plotted_pixels {A} (ntrim : Z) (row : list A) : list A :=
  py_slice row ntrim (- (ntrim + 1)).

(** * Specifications

    What the statements below are written with: shapes of arrays and the
    sums of [residcalc] as the specification words them. *)

Section Specs.
Context {F : Type} `{Arith F}.

(** An array of [n] rows and [p] columns. *)
Definition has_shape (n p : nat) (a : ndarray F) : Prop :=
  length (rows a) = n ∧ ncols a = p ∧ wf_array a.

(** What one overlap pixel [k] of order [i] adds to the four sums: the
    native flux, the flux of order [i+1] resampled at its wavelength, and
    the squares of the two errors. *)
Definition add_pixel (w0 f0r e0r : list F) (f g : interp F) (s : sums F)
  (k : nat) : sums F :=
  {| fluxsum0 := py_add (fluxsum0 s) (NpFloat (nth k f0r (of_int 0)));
     fluxsum1 := py_add (fluxsum1 s)
                   (NpFloat (interp_call f (nth k w0 (of_int 0))));
     errsum0 := py_add (errsum0 s) (py_pow2 (NpFloat (nth k e0r (of_int 0))));
     errsum1 := py_add (errsum1 s)
                  (py_pow2 (NpFloat (interp_call g (nth k w0 (of_int 0))))) |}.

(** The pixels of order [i] whose wavelength is at most [last], in
    ascending order. *)
Definition spec_overlap (w0 : list F) (last : F) : list nat :=
  filter (λ k, fleb (nth k w0 (of_int 0)) last = true) (seq 0 (length w0)).

(** A list without its first [n] and its last [n] entries. *)
Definition trim {A} (n : nat) (l : list A) : list A :=
  take (length l - 2 * n) (drop n l).

(** The four sums over a list of pixels, from the integer zeros. *)
Definition spec_sums (w0 f0r e0r : list F) (f g : interp F)
  (pixels : list nat) : sums F :=
  fold_left (add_pixel w0 f0r e0r f g) pixels sums_init.

(** Four numpy scalars, as the sums are once the loop has run. *)
Definition all_np (s : sums F) : Prop :=
  ∃ a b c d, s = {| fluxsum0 := NpFloat a; fluxsum1 := NpFloat b;
                    errsum0 := NpFloat c; errsum1 := NpFloat d |}.

(** The arrays [residcalc] reads: the wavelengths of the table, and the
    flux and error passed, or else the table's own. *)
Definition residcalc_reads (h : list (ndarray F)) (filedata : table)
  (fl er : option loc) (wavelength flux err : ndarray F) : Prop :=
  h !! c_wavelength filedata = Some wavelength ∧
  h !! default (c_flux filedata) fl = Some flux ∧
  h !! default (c_error filedata) er = Some err.

(** Lines 77-78 for one order: the blaze [row] resampled at
    [pixnos - s]. *)
Definition shift_row (pixnos row : list F) (s : F) : list F :=
  fmap (λ p, interp_call (mk_interp pixnos row) (fsub p s)) pixnos.

(** [newblaze] when the loop of lines 76-79 is over. *)
Definition shifted_blaze (origblaze : ndarray F) (pixshift : list F)
  : ndarray F :=
  {| ncols := ncols origblaze;
     rows := zip_with (shift_row (np_arange (ncols origblaze)))
               (rows origblaze) pixshift |}.

(** The quotient of two arrays of one shape, entry by entry. *)
Definition divided (a b : ndarray F) : ndarray F :=
  {| ncols := ncols a; rows := zip_with (zip_with fdiv) (rows a) (rows b) |}.

(** No entry of the array is zero. *)
Definition nowhere_zero (a : ndarray F) : Prop :=
  Forall (Forall (λ x, feqb x (of_int 0) = false)) (rows a).

(** Two arrays of one shape whose entries differ by [tol] at most. *)
Definition arrays_close (tol : F) (a b : ndarray F) : bool :=
  (ncols a =? ncols b) && (length (rows a) =? length (rows b)) &&
  forallb (λ rr, (length rr.1 =? length rr.2) &&
                 forallb (λ xy, fleb (fabs (fsub xy.1 xy.2)) tol)
                   (zip rr.1 rr.2))
    (zip (rows a) (rows b)).

(** The round trip as a test: [fluxcorrect] with an all-zero shift returns
    arrays within [tol] of the flux and error columns of the table. *)
Definition zero_shift_reproduces (tol : F) (filedata : table)
  (h : list (ndarray F)) : bool :=
  match fluxcorrect filedata (replicate (nrows filedata) (of_int 0)) h with
  | Ok (new, h') =>
      match h' !! new.1, h' !! new.2,
            h !! c_flux filedata, h !! c_error filedata with
      | Some nf, Some ne, Some f, Some e =>
          arrays_close tol nf f && arrays_close tol ne e
      | _, _, _, _ => false
      end
  | Raise _ => false
  end.

(** Consecutive entries related by [R]. *)
Fixpoint chain (R : F → F → bool) (x : list F) : Prop :=
  match x with
  | [] => True
  | a :: t => match t with [] => True | b :: _ => R a b = true end ∧ chain R t
  end.

(** A strictly increasing, a strictly decreasing sample grid. *)
Definition ascending (x : list F) : Prop := chain fltb x.
Definition descending (x : list F) : Prop := chain (λ a b, fltb b a) x.

(** The arrays a table holds in a heap. *)
Definition snapshot (h : list (ndarray F)) (t : table) : option (table_data F) :=
  w ← h !! c_wavelength t;
  f ← h !! c_flux t;
  e ← h !! c_error t;
  n ← h !! c_net t;
  ne ← h !! c_net_error t;
  Some {| d_wavelength := w; d_flux := f; d_error := e;
          d_net := n; d_net_error := ne |}.

(** The table as saved, with new flux and error arrays. *)
Definition with_flux_error (d : table_data F) (nf ne : ndarray F)
  : table_data F :=
  {| d_wavelength := d_wavelength d; d_flux := nf; d_error := ne;
     d_net := d_net d; d_net_error := d_net_error d |}.

(** An extension of at least one order and two pixels per order whose
    five columns are arrays of one shape. *)
Definition wf_table (h : list (ndarray F)) (t : table) : Prop :=
  ∃ d p, snapshot h t = Some d ∧ 1 ≤ nrows t ∧ 2 ≤ p ∧
    has_shape (nrows t) p (d_wavelength d) ∧
    has_shape (nrows t) p (d_flux d) ∧
    has_shape (nrows t) p (d_error d) ∧
    has_shape (nrows t) p (d_net d) ∧
    has_shape (nrows t) p (d_net_error d).

(** The locations of the columns of a table. *)
Definition columns (t : table) : list loc :=
  [c_wavelength t; c_flux t; c_error t; c_net t; c_net_error t].

(** A fit that returns, with numbers as standard errors. *)
Definition fit_returns
  (minimize : (params F → res (list F)) → params F → res (params F)) : Prop :=
  ∀ obj pars, ∃ min ea eb,
    minimize obj pars = Ok min ∧
    stderr (par_a min) = Some ea ∧ stderr (par_b min) = Some eb.


End Specs.

(** The laws of [<] the interpolation relies on; a NaN is below nothing
    and above nothing. *)
Class ArithOrder (F : Type) `{Arith F} : Prop := {
  fltb_trans : ∀ x y z : F, fltb x y = true → fltb y z = true → fltb x z = true;
  fltb_asym : ∀ x y : F, fltb x y = true → fltb y x = false;
  fltb_number_l : ∀ x y : F, fltb x y = true → fisnan x = false;
  fltb_number_r : ∀ x y : F, fltb x y = true → fisnan y = false
}.

(** * Further specifications *)


(** A data-quality flag: one bit. *)
Definition is_flag (f : Z) : Prop := ∃ k, (0 ≤ k)%Z ∧ f = (2 ^ k)%Z.

(** What [fluxfix] writes for one file, against the heap [h] the file was
    read from: as many extensions as read, every extension but the last
    with the arrays it held in [h], the last with new flux and error
    arrays and its other columns as in [h]. *)
Definition last_only {F} (h : list (ndarray F)) (exts : list table)
  (out : list (table_data F)) : Prop :=
  length out = length exts ∧
  (∀ k t, S k < length exts → exts !! k = Some t →
          out !! k = snapshot h t) ∧
  (∀ t, last exts = Some t →
        ∃ d nf ne, snapshot h t = Some d ∧
          out !! (length exts - 1) = Some (with_flux_error d nf ne)).

(** * Example exposures

    Two orders of twelve pixels; the wavelengths of the second order start
    six pixels into the first. The blaze, [net / flux], is 2 everywhere. *)

Definition ex_table : table :=
  {| nrows := 2; c_wavelength := 0; c_flux := 1; c_error := 2;
     c_net := 3; c_net_error := 4 |}.

Definition ex_wave : ndarray float :=
  {| ncols := 12;
     rows := [float_of_Z <$> seqZ 100 12; float_of_Z <$> seqZ 106 12] |}.

Definition ex_const (a b : float) : ndarray float :=
  {| ncols := 12; rows := [replicate 12 a; replicate 12 b] |}.

Definition ex_flux : ndarray float := ex_const 2 1.
Definition ex_err : ndarray float := ex_const 0.5 0.5.
Definition ex_net : ndarray float := ex_const 4 2.
Definition ex_net_error : ndarray float := ex_const 1 1.

Definition ex_heap : list (ndarray float) :=
  [ex_wave; ex_flux; ex_err; ex_net; ex_net_error].

(** The same exposure with no flux and no counts at all. *)
Definition ex_heap_dark : list (ndarray float) :=
  [ex_wave; ex_const 0 0; ex_err; ex_const 0 0; ex_net_error].

(** The same exposure with an error column of 5 throughout. *)
Definition ex_heap_err5 : list (ndarray float) :=
  [ex_wave; ex_flux; ex_const 5 5; ex_net; ex_net_error].


(** A file of two extensions, the second a copy of the first in arrays of
    its own. *)
Definition ex_table2 : table :=
  {| nrows := 2; c_wavelength := 5; c_flux := 6; c_error := 7;
     c_net := 8; c_net_error := 9 |}.
Definition ex_heap2 : list (ndarray float) := ex_heap ++ ex_heap.

(** A stand-in for the minimizer that leaves the values where they are and
    reports the standard errors 0.25 and 0.5. *)
Definition ex_minimize (obj : params float → res (list float))
  (pars : params float) : res (params float) :=
  Ok {| par_a := {| value := value (par_a pars); stderr := Some 0.25%float;
                    vary := vary (par_a pars) |};
        par_b := {| value := value (par_b pars); stderr := Some 0.5%float;
                    vary := vary (par_b pars) |} |}.

(** An exposure in exact arithmetic: one order of two pixels. *)
Definition rx_table : table :=
  {| nrows := 1; c_wavelength := 0; c_flux := 1; c_error := 2;
     c_net := 3; c_net_error := 4 |}.
Definition rx_row (a b : R) : ndarray R := {| ncols := 2; rows := [[a; b]] |}.

(** A stand-in for a minimizer that estimates no standard error: the
    parameters come back as they went in, [stderr] still [None]. *)
Definition ex_minimize_bare (obj : params float → res (list float))
  (pars : params float) : res (params float) := Ok pars.

(** An exposure in exact arithmetic whose blaze is flat: [net = 2 * flux]
    at both pixels. *)
Definition rx_heap_flat : list (ndarray R) :=
  [rx_row 100 101; rx_row 1 2; rx_row 3 3; rx_row 2 4; rx_row 1 1]%R.

(** * Properties *)

(** ** The exception monad *)

Lemma res_bind_Ok {A B} (a : A) (f : A → res B) : Ok a ≫= f = f a.
Proof. reflexivity. Qed.

Lemma res_bind_Raise {A B} (e : pyexc) (f : A → res B) :
  (Raise e : res A) ≫= f = Raise e.
Proof. reflexivity. Qed.

(** ** Indexing and selection *)

Section Indexing.
Context {A : Type}.
Implicit Types (a : list A) (idx : list nat).

Lemma py_getitem_lookup a k x :
  a !! k = Some x → py_getitem a (Z.of_nat k) = Ok x.
Proof.
  intros Hk. unfold py_getitem.
  pose proof (lookup_lt_Some _ _ _ Hk) as Hlt.
  destruct (Z.of_nat k <? 0)%Z eqn:E; [lia|].
  replace ((0 <=? Z.of_nat k) && (Z.of_nat k <? Z.of_nat (length a)))%Z
    with true by (symmetry; apply andb_true_intro; split; lia).
  by rewrite Nat2Z.id, Hk.
Qed.

Lemma py_getitem_last a x :
  last a = Some x → py_getitem a (-1) = Ok x.
Proof.
  intros Hl. unfold py_getitem. simpl.
  rewrite last_lookup in Hl.
  pose proof (lookup_lt_Some _ _ _ Hl) as Hlt.
  replace ((0 <=? Z.of_nat (length a) + -1) &&
           (Z.of_nat (length a) + -1 <? Z.of_nat (length a)))%Z
    with true by (symmetry; apply andb_true_intro; split; lia).
  replace (Z.to_nat (Z.of_nat (length a) + -1)) with (pred (length a)) by lia.
  by rewrite Hl.
Qed.

Lemma take_idx_ok a idx (d : A) :
  Forall (λ k, k < length a) idx →
  take_idx a idx = Ok (fmap (λ k, nth k a d) idx).
Proof.
  unfold take_idx. induction 1 as [|k idx Hk _ IH]; [done|].
  simpl. destruct (lookup_lt_is_Some_2 a k Hk) as [x Hx].
  rewrite (py_getitem_lookup _ _ _ Hx). simpl. rewrite IH. simpl.
  by rewrite (nth_lookup_Some _ _ d _ Hx).
Qed.

Lemma filter_ext_elem (P Q : nat → Prop) `{∀ x, Decision (P x)}
  `{∀ x, Decision (Q x)} (l : list nat) :
  (∀ x, x ∈ l → (P x ↔ Q x)) → filter P l = filter Q l.
Proof.
  induction l as [|x l IH]; intros HPQ; [done|].
  rewrite !filter_cons.
  rewrite IH by (intros y Hy; apply HPQ; by right).
  pose proof (HPQ x (list_elem_of_here _ _)) as Hx.
  destruct (decide (P x)), (decide (Q x)); tauto || done.
Qed.

Lemma where_from_filter (c : list bool) i :
  where_from i c = filter (λ k, c !! (k - i) = Some true) (seq i (length c)).
Proof.
  revert i. induction c as [|b c IH]; intros i; [done|].
  simpl. rewrite filter_cons, Nat.sub_diag. simpl.
  rewrite (filter_ext_elem (λ k, (b :: c) !! (k - i) = Some true)
             (λ k, c !! (k - S i) = Some true)).
  - rewrite <- IH. destruct b; [by rewrite decide_True|].
    by rewrite decide_False.
  - intros k Hk%elem_of_seq.
    replace (k - i) with (S (k - S i)) by lia. done.
Qed.

Lemma where_from_bound (c : list bool) i :
  Forall (λ k, k < i + length c) (where_from i c).
Proof.
  rewrite where_from_filter. apply Forall_forall.
  intros k [_ Hk%elem_of_seq]%list_elem_of_filter. lia.
Qed.
End Indexing.

(** ** The trimmed sums of residcalc *)

Section Residcalc.
Context {F : Type} `{Arith F}.
Implicit Types (s : sums F) (ntrim : Z).

Local Abbreviation zero := (of_int 0%Z).

Lemma has_shape_row n p (a : ndarray F) i :
  has_shape n p a → i < n → ∃ r, rows a !! i = Some r ∧ length r = p.
Proof.
  intros (Hn & Hp & Hwf) Hi.
  destruct (lookup_lt_is_Some_2 (rows a) i) as [r Hr]; [lia|].
  exists r. split; [done|].
  rewrite <- Hp. by apply (Forall_lookup_1 _ _ _ _ Hwf Hr).
Qed.

Lemma overlap_of_spec (w0 : list F) last : overlap_of w0 last = spec_overlap w0 last.
Proof.
  unfold overlap_of, spec_overlap, np_where.
  rewrite where_from_filter, length_fmap.
  apply filter_ext_elem. intros k Hk%elem_of_seq.
  rewrite Nat.sub_0_r, list_lookup_fmap.
  destruct (lookup_lt_is_Some_2 w0 k) as [w Hw]; [lia|].
  rewrite Hw, (nth_lookup_Some _ _ zero _ Hw). simpl.
  split; [by intros [= ->]|by intros ->].
Qed.

Lemma overlap_of_bound (w0 : list F) last :
  Forall (λ k, k < length w0) (overlap_of w0 last).
Proof.
  unfold overlap_of, np_where.
  pose proof (where_from_bound (fmap (λ w, fleb w last) w0) 0) as Hb.
  by rewrite length_fmap in Hb.
Qed.

Lemma sum_step_lookup (f0 f1 g0 g1 : list F) i s a b c d :
  f0 !! i = Some a → f1 !! i = Some b → g0 !! i = Some c → g1 !! i = Some d →
  sum_step f0 f1 g0 g1 (Z.of_nat i) s =
  Ok {| fluxsum0 := py_add (fluxsum0 s) (NpFloat a);
        fluxsum1 := py_add (fluxsum1 s) (NpFloat b);
        errsum0 := py_add (errsum0 s) (py_pow2 (NpFloat c));
        errsum1 := py_add (errsum1 s) (py_pow2 (NpFloat d)) |}.
Proof.
  intros Ha Hb Hc Hd. unfold sum_step.
  rewrite (py_getitem_lookup _ _ _ Ha), (py_getitem_lookup _ _ _ Hb),
    (py_getitem_lookup _ _ _ Hc), (py_getitem_lookup _ _ _ Hd).
  reflexivity.
Qed.

(** The loop of lines 121-127 over lists that hold, at position [i], the
    values of the [i]-th overlap pixel. *)
Lemma for_range_sums (w0 f0r e0r : list F) f g (ov : list nat) count st s :
  count = 0 ∨ st + count ≤ length ov →
  for_range count (Z.of_nat st)
    (sum_step (fmap (λ k, nth k f0r zero) ov)
              (fmap (interp_call f) (fmap (λ k, nth k w0 zero) ov))
              (fmap (λ k, nth k e0r zero) ov)
              (fmap (interp_call g) (fmap (λ k, nth k w0 zero) ov))) s
  = Ok (fold_left (add_pixel w0 f0r e0r f g) (take count (drop st ov)) s).
Proof.
  revert st s. induction count as [|count IH]; intros st s Hle; [done|].
  destruct Hle as [|Hle]; [done|].
  destruct (lookup_lt_is_Some_2 ov st) as [k Hk]; [lia|].
  cbn [for_range].
  rewrite (sum_step_lookup _ _ _ _ st s (nth k f0r zero)
             (interp_call f (nth k w0 zero)) (nth k e0r zero)
             (interp_call g (nth k w0 zero)))
    by (by rewrite !list_lookup_fmap, Hk).
  rewrite res_bind_Ok.
  replace (Z.of_nat st + 1)%Z with (Z.of_nat (S st)) by lia.
  rewrite IH by lia.
  by rewrite (drop_S _ _ _ Hk).
Qed.

Lemma trimmed_sums_spec (w0 f0r e0r : list F) f g (ov : list nat) ntrim :
  (0 ≤ ntrim)%Z →
  trimmed_sums (length ov)
    (fmap (λ k, nth k f0r zero) ov)
    (fmap (interp_call f) (fmap (λ k, nth k w0 zero) ov))
    (fmap (λ k, nth k e0r zero) ov)
    (fmap (interp_call g) (fmap (λ k, nth k w0 zero) ov)) ntrim
  = Ok (spec_sums w0 f0r e0r f g (trim (Z.to_nat ntrim) ov)).
Proof.
  intros Hnt. unfold trimmed_sums, spec_sums, trim.
  destruct (Z_of_nat_complete ntrim Hnt) as [nt ->].
  rewrite Nat2Z.id, for_range_sums by lia.
  do 3 f_equal. lia.
Qed.

(** The loop does not run when the overlap has at most [2*ntrim]
    pixels, whatever the lists hold. *)
Lemma trimmed_sums_short n (f0 f1 g0 g1 : list F) ntrim :
  (Z.of_nat n ≤ 2 * ntrim)%Z →
  trimmed_sums n f0 f1 g0 g1 ntrim = Ok sums_init.
Proof.
  intros Hn. unfold trimmed_sums.
  by replace (Z.to_nat (Z.of_nat n - ntrim - ntrim)) with 0 by lia.
Qed.

Lemma getrow_lookup (a : ndarray F) i r :
  rows a !! i = Some r → getrow a i = Ok r.
Proof. intros Hr. unfold getrow. by rewrite Hr. Qed.

Lemma interp1d_ok (x y : list F) :
  length y = length x → 2 ≤ length x → interp1d x y = Ok (mk_interp x y).
Proof.
  intros Hl Hx. unfold interp1d. rewrite Hl, Nat.eqb_refl. simpl.
  by replace (length x <? 2) with false by (symmetry; apply Nat.ltb_ge; lia).
Qed.

(** One turn of the loop on a well-shaped exposure: the rows exist, the
    interpolants are built, every selected index is in range. *)
Lemma pair_sums_eq (wavelength flux err : ndarray F) ntrim order
  (w0 w1 f0r f1r e0r e1r : list F) (last : F) :
  rows wavelength !! order = Some w0 →
  rows wavelength !! (order + 1) = Some w1 →
  rows flux !! order = Some f0r →
  rows flux !! (order + 1) = Some f1r →
  rows err !! order = Some e0r →
  rows err !! (order + 1) = Some e1r →
  length f0r = length w0 → length e0r = length w0 →
  length f1r = length w1 → length e1r = length w1 →
  2 ≤ length w1 →
  List.last w1 zero = last →
  let ov := overlap_of w0 last in
  pair_sums wavelength flux err ntrim order =
  trimmed_sums (length ov)
    (fmap (λ k, nth k f0r zero) ov)
    (fmap (interp_call (mk_interp w1 f1r)) (fmap (λ k, nth k w0 zero) ov))
    (fmap (λ k, nth k e0r zero) ov)
    (fmap (interp_call (mk_interp w1 e1r)) (fmap (λ k, nth k w0 zero) ov))
    ntrim.
Proof.
  intros Hw0 Hw1 Hf0 Hf1 He0 He1 Lf0 Le0 Lf1 Le1 Hp Hlast ov.
  assert (Hl : py_getitem w1 (-1) = Ok last).
  { apply py_getitem_last. rewrite <- Hlast.
    destruct w1 as [|x w1 _] using rev_ind; [simpl in Hp; lia|].
    by rewrite last_snoc, List.last_last. }
  pose proof (overlap_of_bound w0 last) as Hb. fold ov in Hb.
  unfold pair_sums.
  rewrite (getrow_lookup _ _ _ Hw1), res_bind_Ok.
  rewrite (getrow_lookup _ _ _ Hf1), res_bind_Ok.
  rewrite (interp1d_ok w1 f1r), res_bind_Ok by (done || lia).
  rewrite (getrow_lookup _ _ _ He1), res_bind_Ok.
  rewrite (interp1d_ok w1 e1r), res_bind_Ok by (done || lia).
  rewrite (getrow_lookup _ _ _ Hw0), res_bind_Ok.
  rewrite Hl, res_bind_Ok. fold ov.
  rewrite (getrow_lookup _ _ _ Hf0), res_bind_Ok.
  rewrite (take_idx_ok f0r ov zero), res_bind_Ok by (by rewrite Lf0).
  rewrite (take_idx_ok w0 ov zero), res_bind_Ok by done.
  rewrite (getrow_lookup _ _ _ He0), res_bind_Ok.
  rewrite (take_idx_ok e0r ov zero), res_bind_Ok by (by rewrite Le0).
  reflexivity.
Qed.

(** [except ZeroDivisionError] leaves no exception behind. *)
Lemma resid_or_fallback_total s : ∃ r, resid_or_fallback s = Ok r.
Proof.
  unfold resid_or_fallback, ratio_resid, py_truediv.
  repeat match goal with
         | |- context [if ?b then _ else _] => destruct b
         end; simpl; eauto.
Qed.

Lemma add_pixel_np (w0 f0r e0r : list F) f g s k :
  s = sums_init ∨ all_np s → all_np (add_pixel w0 f0r e0r f g s k).
Proof.
  intros [->|(a & b & c & d & ->)]; unfold add_pixel; simpl;
    repeat eexists.
Qed.

Lemma spec_sums_kind (w0 f0r e0r : list F) f g pixels :
  let s := spec_sums w0 f0r e0r f g pixels in
  (pixels = [] ∧ s = sums_init) ∨ (pixels ≠ [] ∧ all_np s).
Proof.
  unfold spec_sums. destruct pixels as [|k pixels]; [by left|right].
  split; [done|]. simpl.
  assert (Hs : all_np (add_pixel w0 f0r e0r f g sums_init k))
    by (apply add_pixel_np; by left).
  revert Hs. generalize (add_pixel w0 f0r e0r f g sums_init k).
  induction pixels as [|k' pixels IH]; intros s Hs; [done|].
  simpl. apply IH, add_pixel_np. by right.
Qed.

(** The loop over the pairs: every turn that returns fills its slot of
    [resids] and [residerr] and leaves the slots before it alone. *)
Lemma resid_loop_ok (wavelength flux err : ndarray F) ntrim count order
  (acc : list F * list F) m :
  (∀ k, order ≤ k < order + count →
        ∃ r, resid_order wavelength flux err ntrim k = Ok r) →
  length acc.1 = m → length acc.2 = m → order + count ≤ m →
  ∃ rs es,
    resid_loop count order wavelength flux err ntrim acc = Ok (rs, es) ∧
    length rs = m ∧ length es = m ∧
    (∀ k, k < order → rs !! k = acc.1 !! k ∧ es !! k = acc.2 !! k) ∧
    (∀ k r, order ≤ k < order + count →
            resid_order wavelength flux err ntrim k = Ok r →
            rs !! k = Some r.1 ∧ es !! k = Some r.2).
Proof.
  revert order acc. induction count as [|count IH]; intros order acc Hok L1 L2 Hm.
  - exists acc.1, acc.2. simpl. destruct acc. repeat split; try done.
    all: intros; lia.
  - destruct (Hok order ltac:(lia)) as [r Hr].
    cbn [resid_loop]. rewrite Hr, res_bind_Ok.
    destruct (IH (S order) (<[order:=r.1]> acc.1, <[order:=r.2]> acc.2))
      as (rs & es & Hloop & Lr & Le & Hbefore & Hin).
    + intros k Hk. apply Hok. lia.
    + simpl. by rewrite length_insert.
    + simpl. by rewrite length_insert.
    + lia.
    + exists rs, es. rewrite Hloop. repeat split; try done.
      * destruct (Hbefore k ltac:(lia)) as [-> _]. simpl.
        apply list_lookup_insert_ne. lia.
      * destruct (Hbefore k ltac:(lia)) as [_ ->]. simpl.
        apply list_lookup_insert_ne. lia.
      * destruct (decide (k = order)) as [->|Hne].
        -- destruct (Hbefore order ltac:(lia)) as [-> _]. simpl.
           rewrite list_lookup_insert_eq by lia. congruence.
        -- by apply Hin; [lia|].
      * destruct (decide (k = order)) as [->|Hne].
        -- destruct (Hbefore order ltac:(lia)) as [_ ->]. simpl.
           rewrite list_lookup_insert_eq by lia. congruence.
        -- by apply Hin; [lia|].
Qed.

(** On a well-shaped exposure with a non-negative trim every turn
    returns. *)
Lemma resid_order_total (wavelength flux err : ndarray F) n p ntrim order :
  has_shape n p wavelength → has_shape n p flux → has_shape n p err →
  2 ≤ p → (0 ≤ ntrim)%Z → order + 1 < n →
  ∃ r, resid_order wavelength flux err ntrim order = Ok r.
Proof.
  intros Hw Hf He Hp Hnt Ho.
  destruct (has_shape_row _ _ _ order Hw) as (w0 & Hw0 & Lw0); [lia|].
  destruct (has_shape_row _ _ _ (order + 1) Hw) as (w1 & Hw1 & Lw1); [lia|].
  destruct (has_shape_row _ _ _ order Hf) as (f0r & Hf0 & Lf0); [lia|].
  destruct (has_shape_row _ _ _ (order + 1) Hf) as (f1r & Hf1 & Lf1); [lia|].
  destruct (has_shape_row _ _ _ order He) as (e0r & He0 & Le0); [lia|].
  destruct (has_shape_row _ _ _ (order + 1) He) as (e1r & He1 & Le1); [lia|].
  unfold resid_order.
  rewrite (pair_sums_eq _ _ _ ntrim order w0 w1 f0r f1r e0r e1r
             (List.last w1 zero)) by (done || lia).
  rewrite trimmed_sums_spec, res_bind_Ok by done.
  destruct (resid_or_fallback_total
              (spec_sums w0 f0r e0r (mk_interp w1 f1r) (mk_interp w1 e1r)
                 (trim (Z.to_nat ntrim) (overlap_of w0 (List.last w1 zero)))))
    as [r ->].
  rewrite res_bind_Ok. eauto.
Qed.

(** [residcalc] on a well-shaped exposure returns one residual and one
    error per pair of adjacent orders, each the outcome of its turn. *)
Lemma residcalc_arrays_at (wavelength flux err : ndarray F) n p ntrim :
  has_shape n p wavelength → has_shape n p flux → has_shape n p err →
  2 ≤ p → (0 ≤ ntrim)%Z → 1 ≤ n →
  ∃ rs es,
    residcalc_arrays wavelength flux err ntrim = Ok (rs, es) ∧
    length rs = n - 1 ∧ length es = n - 1 ∧
    (∀ order r, order + 1 < n →
       resid_order wavelength flux err ntrim order = Ok r →
       rs !! order = Some r.1 ∧ es !! order = Some r.2).
Proof.
  intros Hw Hf He Hp Hnt Hn. unfold residcalc_arrays, np_shape. simpl.
  destruct Hf as (Ln & Lp & Hwf). rewrite Ln.
  replace (n =? 0) with false by (symmetry; apply Nat.eqb_neq; lia).
  destruct (resid_loop_ok wavelength flux err ntrim (n - 1) 0
              (replicate (n - 1) zero, replicate (n - 1) zero) (n - 1))
    as (rs & es & Hloop & Lr & Le & _ & Hin).
  - intros k Hk. apply (resid_order_total _ _ _ n p); try done; lia.
  - apply length_replicate.
  - apply length_replicate.
  - lia.
  - exists rs, es. do 3 (split; [done|]).
    intros order r Ho Hr. apply (Hin order r); [lia|done].
Qed.

Lemma residcalc_run h filedata fl er ntrim (wavelength flux err : ndarray F) :
  residcalc_reads h filedata fl er wavelength flux err →
  residcalc filedata fl er ntrim h =
  match residcalc_arrays wavelength flux err ntrim with
  | Ok r => Ok (r, h)
  | Raise e => Raise e
  end.
Proof.
  intros (Hw & Hf & He). unfold residcalc, load, lift, mbind, M_bind.
  by rewrite Hf, He, Hw.
Qed.

(** The fallback of lines 131-133 is what the integer zeros lead to. *)
Lemma resid_or_fallback_init :
  resid_or_fallback (F:=F) sums_init = Ok (PyInt 0, PyInt 1).
Proof. reflexivity. Qed.

(** With numpy sums no division raises: the two formulas are the result,
    whatever the sums are. *)
Lemma resid_or_fallback_np (a b c d : F) :
  resid_or_fallback {| fluxsum0 := NpFloat a; fluxsum1 := NpFloat b;
                       errsum0 := NpFloat c; errsum1 := NpFloat d |} =
  let resid := fsub (of_int 1) (fdiv a b) in
  Ok (NpFloat resid,
      NpFloat (fmul (fabs (fsub (of_int 1) resid))
                 (fsqrt (fadd (fdiv c (fmul a a)) (fdiv d (fmul b b)))))).
Proof. reflexivity. Qed.

(** C9: when the overlap of a pair has at most [2*ntrim] pixels the loop
    of lines 122-127 does not run, the four sums stay the integers 0, and
    [residcalc] stores residual 0 and residual error 1 for the pair,
    whatever the flux and error arrays hold. *)
Theorem residcalc_short_overlap h filedata fl er
  (wavelength flux err : ndarray F) n p ntrim order (w0 w1 : list F) :
  residcalc_reads h filedata fl er wavelength flux err →
  has_shape n p wavelength → has_shape n p flux → has_shape n p err →
  2 ≤ p → order + 1 < n →
  rows wavelength !! order = Some w0 →
  rows wavelength !! (order + 1) = Some w1 →
  (Z.of_nat (length (overlap_of w0 (List.last w1 zero))) ≤ 2 * ntrim)%Z →
  pair_sums wavelength flux err ntrim order = Ok sums_init ∧
  ∃ rs es,
    residcalc filedata fl er ntrim h = Ok ((rs, es), h) ∧
    rs !! order = Some (of_int 0) ∧ es !! order = Some (of_int 1).
Proof.
  intros Hreads Hw Hf He Hp Ho Hw0 Hw1 Hshort.
  destruct (has_shape_row _ _ _ order Hw) as (w0' & Hw0' & Lw0); [lia|].
  destruct (has_shape_row _ _ _ (order + 1) Hw) as (w1' & Hw1' & Lw1); [lia|].
  rewrite Hw0 in Hw0'. rewrite Hw1 in Hw1'.
  injection Hw0' as <-. injection Hw1' as <-.
  destruct (has_shape_row _ _ _ order Hf) as (f0r & Hf0 & Lf0); [lia|].
  destruct (has_shape_row _ _ _ (order + 1) Hf) as (f1r & Hf1 & Lf1); [lia|].
  destruct (has_shape_row _ _ _ order He) as (e0r & He0 & Le0); [lia|].
  destruct (has_shape_row _ _ _ (order + 1) He) as (e1r & He1 & Le1); [lia|].
  assert (Hsums : pair_sums wavelength flux err ntrim order = Ok sums_init).
  { rewrite (pair_sums_eq _ _ _ ntrim order w0 w1 f0r f1r e0r e1r
               (List.last w1 zero)) by (done || lia).
    by apply trimmed_sums_short. }
  split; [done|].
  destruct (residcalc_arrays_at wavelength flux err n p ntrim)
    as (rs & es & Hrun & _ & _ & Hat); try done; try lia.
  exists rs, es. rewrite (residcalc_run _ _ _ _ _ _ _ _ Hreads), Hrun.
  split; [done|].
  apply (Hat order (of_int 0, of_int 1)); [done|].
  unfold resid_order. by rewrite Hsums, res_bind_Ok, resid_or_fallback_init.
Qed.

(** C4: when the two trimmed flux sums of a pair are not zero,
    [residcalc] stores [1 - fluxsum0/fluxsum1] as the residual of the pair
    and [abs(1 - resid) * sqrt(errsum0/fluxsum0**2 + errsum1/fluxsum1**2)]
    as its error, the sums being those of lines 118-127. *)
Theorem residcalc_ratio h filedata fl er (wavelength flux err : ndarray F)
  n p ntrim order s :
  residcalc_reads h filedata fl er wavelength flux err →
  has_shape n p wavelength → has_shape n p flux → has_shape n p err →
  2 ≤ p → (0 ≤ ntrim)%Z → order + 1 < n →
  pair_sums wavelength flux err ntrim order = Ok s →
  py_is_zero (fluxsum0 s) = false →
  py_is_zero (fluxsum1 s) = false →
  ∃ rs es,
    residcalc filedata fl er ntrim h = Ok ((rs, es), h) ∧
    let f0 := to_F (fluxsum0 s) in
    let f1 := to_F (fluxsum1 s) in
    let resid := fsub (of_int 1) (fdiv f0 f1) in
    rs !! order = Some resid ∧
    es !! order =
      Some (fmul (fabs (fsub (of_int 1) resid))
              (fsqrt (fadd (fdiv (to_F (errsum0 s)) (fmul f0 f0))
                           (fdiv (to_F (errsum1 s)) (fmul f1 f1))))).
Proof.
  intros Hreads Hw Hf He Hp Hnt Ho Hsums Hz0 Hz1.
  destruct (has_shape_row _ _ _ order Hw) as (w0 & Hw0 & Lw0); [lia|].
  destruct (has_shape_row _ _ _ (order + 1) Hw) as (w1 & Hw1 & Lw1); [lia|].
  destruct (has_shape_row _ _ _ order Hf) as (f0r & Hf0 & Lf0); [lia|].
  destruct (has_shape_row _ _ _ (order + 1) Hf) as (f1r & Hf1 & Lf1); [lia|].
  destruct (has_shape_row _ _ _ order He) as (e0r & He0 & Le0); [lia|].
  destruct (has_shape_row _ _ _ (order + 1) He) as (e1r & He1 & Le1); [lia|].
  assert (Hnp : all_np s).
  { rewrite (pair_sums_eq _ _ _ ntrim order w0 w1 f0r f1r e0r e1r
               (List.last w1 zero)) in Hsums by (done || lia).
    rewrite trimmed_sums_spec in Hsums by done. injection Hsums as <-.
    match goal with
    | |- all_np (spec_sums ?a ?b ?c ?f ?g ?l) =>
        destruct (spec_sums_kind a b c f g l) as [[_ Hinit]|[_ Hnp]]
    end; [|done].
    rewrite Hinit in Hz0. discriminate Hz0. }
  destruct Hnp as (a & b & c & d & ->).
  destruct (residcalc_arrays_at wavelength flux err n p ntrim)
    as (rs & es & Hrun & _ & _ & Hat); try done; try lia.
  exists rs, es. rewrite (residcalc_run _ _ _ _ _ _ _ _ Hreads), Hrun.
  split; [done|]. simpl.
  apply (Hat order (fsub (of_int 1) (fdiv a b), _)); [done|].
  unfold resid_order. by rewrite Hsums, res_bind_Ok, resid_or_fallback_np.
Qed.

(** C5: the overlap of the pair [(i, i+1)] is the set of pixels of order
    [i] whose wavelength is at most the last wavelength of order [i+1], and
    the four sums run over these pixels in ascending order without the
    first [ntrim] and the last [ntrim] of them. *)
Theorem residcalc_overlap_sums (wavelength flux err : ndarray F) n p ntrim
  order (w0 w1 f0r f1r e0r e1r : list F) :
  has_shape n p wavelength → has_shape n p flux → has_shape n p err →
  2 ≤ p → (0 ≤ ntrim)%Z → order + 1 < n →
  rows wavelength !! order = Some w0 →
  rows wavelength !! (order + 1) = Some w1 →
  rows flux !! order = Some f0r →
  rows flux !! (order + 1) = Some f1r →
  rows err !! order = Some e0r →
  rows err !! (order + 1) = Some e1r →
  let last := List.last w1 zero in
  (∀ k, k ∈ overlap_of w0 last ↔ ∃ w, w0 !! k = Some w ∧ fleb w last = true) ∧
  overlap_of w0 last = spec_overlap w0 last ∧
  pair_sums wavelength flux err ntrim order =
    Ok (spec_sums w0 f0r e0r (mk_interp w1 f1r) (mk_interp w1 e1r)
          (trim (Z.to_nat ntrim) (spec_overlap w0 last))).
Proof.
  intros Hw Hf He Hp Hnt Ho Hw0 Hw1 Hf0 Hf1 He0 He1 last.
  assert (Hlen : ∀ (a : ndarray F) i r, has_shape n p a → rows a !! i = Some r →
                 length r = p).
  { intros a i r (_ & <- & Hwf) Hr. by apply (Forall_lookup_1 _ _ _ _ Hwf Hr). }
  split; [|split].
  - intros k. rewrite overlap_of_spec. unfold spec_overlap.
    rewrite list_elem_of_filter, elem_of_seq. split.
    + intros [Hle Hk]. destruct (lookup_lt_is_Some_2 w0 k) as [w Hk']; [lia|].
      exists w. split; [done|].
      by rewrite (nth_lookup_Some _ _ zero _ Hk') in Hle.
    + intros (w & Hk' & Hle). rewrite (nth_lookup_Some _ _ zero _ Hk').
      split; [done|]. apply lookup_lt_Some in Hk'. lia.
  - apply overlap_of_spec.
  - rewrite (pair_sums_eq _ _ _ ntrim order w0 w1 f0r f1r e0r e1r last);
      try done;
      rewrite ?(Hlen _ _ _ Hw Hw0), ?(Hlen _ _ _ Hw Hw1), ?(Hlen _ _ _ Hf Hf0),
        ?(Hlen _ _ _ Hf Hf1), ?(Hlen _ _ _ He He0), ?(Hlen _ _ _ He He1);
      try done.
    rewrite trimmed_sums_spec by done. by rewrite overlap_of_spec.
Qed.

End Residcalc.

(** ** Interpolation and extrapolation *)

Section Interpolation.
Context {F : Type} `{ArithOrder F}.

Local Abbreviation zero := (of_int 0%Z).

Lemma np_less_lt (a v : F) : fltb a v = true → np_less a v = true.
Proof. intros Hlt. unfold np_less. by rewrite Hlt. Qed.

Lemma np_less_gt (a v : F) : fltb v a = true → np_less a v = false.
Proof.
  intros Hlt. unfold np_less.
  by rewrite (fltb_asym _ _ Hlt), (fltb_number_l _ _ Hlt).
Qed.

Lemma chain_tail (R : F → F → bool) a t : chain R (a :: t) → chain R t.
Proof. by intros [_ Ht]. Qed.

Lemma chain_all (R : F → F → bool) a t :
  (∀ x y z, R x y = true → R y z = true → R x z = true) →
  chain R (a :: t) → Forall (λ b, R a b = true) t.
Proof.
  intros Htrans. revert a. induction t as [|b t IH]; intros a [Hab Ht]; [done|].
  constructor; [done|].
  apply (IH b) in Ht as Hall.
  eapply Forall_impl; [exact Hall|]. intros c Hbc. by apply (Htrans a b c).
Qed.

Lemma chain_snoc (R : F → F → bool) l a :
  chain R l → (∀ b, last l = Some b → R b a = true) → chain R (l ++ [a]).
Proof.
  induction l as [|b l IH]; intros Hl Hlast; [done|].
  destruct l as [|c l].
  - simpl. split; [|done]. by apply Hlast.
  - destruct Hl as [Hbc Hl]. split; [done|].
    apply IH; [done|]. intros d Hd. apply Hlast. by rewrite last_cons_cons.
Qed.

Lemma chain_reverse (R : F → F → bool) l :
  chain (λ a b, R b a) l → chain R (reverse l).
Proof.
  induction l as [|a l IH]; intros Hl; [done|].
  rewrite reverse_cons. apply chain_snoc.
  - apply IH. by apply chain_tail in Hl.
  - intros b Hb. rewrite last_reverse in Hb.
    destruct l as [|c l]; [done|]. injection Hb as <-. by destruct Hl.
Qed.


(** Sorting leaves a strictly increasing grid as it is. *)
Lemma sort_pts_ascending (l : list (F * F)) :
  ascending (l.*1) → sort_pts l = l.
Proof.
  induction l as [|p l IH]; intros Hl; [done|].
  simpl. rewrite IH by (by apply chain_tail in Hl).
  destruct l as [|q l]; [done|]. destruct Hl as [Hpq _].
  simpl. by rewrite (np_less_gt _ _ Hpq).
Qed.

Lemma insert_pt_last (p : F * F) (l : list (F * F)) :
  Forall (λ q, fltb q.1 p.1 = true) l → insert_pt p l = l ++ [p].
Proof.
  induction 1 as [|q l Hq _ IH]; [done|].
  simpl. by rewrite (np_less_lt _ _ Hq), IH.
Qed.

(** Sorting reverses a strictly decreasing grid. *)
Lemma sort_pts_descending (l : list (F * F)) :
  descending (l.*1) → sort_pts l = reverse l.
Proof.
  induction l as [|p l IH]; intros Hl; [done|].
  simpl. rewrite IH by (by apply chain_tail in Hl).
  rewrite reverse_cons. apply insert_pt_last.
  apply (chain_all (λ a b, fltb b a)) in Hl.
  - apply Forall_forall. intros q Hq. rewrite elem_of_reverse in Hq.
    rewrite Forall_forall in Hl. apply Hl.
    apply list_elem_of_fmap. by exists q.
  - intros x y z Hxy Hyz. by apply (fltb_trans z y x).
Qed.





(** What [interp1d] stores for a strictly monotonic grid: the samples as
    they are, or reversed. *)
Lemma mk_interp_monotonic (x y : list F) :
  length y = length x →
  (ascending x → ix (mk_interp x y) = x ∧ iy (mk_interp x y) = y) ∧
  (descending x →
   ix (mk_interp x y) = reverse x ∧ iy (mk_interp x y) = reverse y).
Proof.
  intros Hl. unfold mk_interp. simpl.
  assert (Hx : (zip x y).*1 = x) by (apply fst_zip; lia).
  assert (Hy : (zip x y).*2 = y) by (apply snd_zip; lia).
  split; intros Hm.
  - rewrite sort_pts_ascending by (by rewrite Hx). done.
  - rewrite sort_pts_descending by (by rewrite Hx).
    by rewrite !fmap_reverse, Hx, Hy.
Qed.

(** The grid [interp1d] stores is strictly increasing either way. *)
Lemma mk_interp_ascending (x y : list F) :
  length y = length x → ascending x ∨ descending x →
  ascending (ix (mk_interp x y)).
Proof.
  intros Hl Hm. destruct (mk_interp_monotonic x y Hl) as [Hasc Hdesc].
  destruct Hm as [Hm|Hm].
  - by destruct (Hasc Hm) as [-> _].
  - destruct (Hdesc Hm) as [-> _]. by apply chain_reverse.
Qed.



End Interpolation.

(** ** The order laws in binary64 and in the reals *)

Lemma SFcompare_Lt_trans (x y z : SpecFloat.spec_float) :
  SpecFloat.SFcompare x y = Some Lt → SpecFloat.SFcompare y z = Some Lt →
  SpecFloat.SFcompare x z = Some Lt.
Proof.
  destruct x as [sx|sx| |sx mx ex], y as [sy|sy| |sy my ey],
    z as [sz|sz| |sz mz ez];
    simpl; try discriminate; try reflexivity;
    repeat match goal with s : bool |- _ => destruct s end; simpl;
    try discriminate; try reflexivity;
    intros H1 H2; injection H1 as H1; injection H2 as H2;
    f_equal; revert H1 H2;
    rewrite ?Pos.compare_cont_spec;
    repeat match goal with
           | |- context [Z.compare ?a ?b] => destruct (Z.compare_spec a b)
           end;
    repeat match goal with
           | |- context [Pos.compare ?a ?b] => destruct (Pos.compare_spec a b)
           end;
    simpl; try discriminate; try reflexivity; intros; subst; try lia.
Qed.

Lemma SFcompare_self (x : SpecFloat.spec_float) :
  SpecFloat.SFcompare x x = None ∨ SpecFloat.SFcompare x x = Some Eq.
Proof.
  destruct x as [s|s| |s m e]; simpl; auto; right.
  - by destruct s.
  - destruct s; rewrite Z.compare_refl, Pos.compare_cont_refl; done.
Qed.

Lemma SFcompare_Lt_number (x y : SpecFloat.spec_float) :
  SpecFloat.SFcompare x y = Some Lt →
  SpecFloat.SFcompare x x = Some Eq ∧ SpecFloat.SFcompare y y = Some Eq.
Proof.
  intros Hlt. split.
  - destruct (SFcompare_self x) as [Hn|]; [|done].
    destruct x; try discriminate Hn. destruct y; discriminate Hlt.
  - destruct (SFcompare_self y) as [Hn|]; [|done].
    destruct y; try discriminate Hn. destruct x; discriminate Hlt.
Qed.

Lemma float_ltb_Lt (x y : float) :
  PrimFloat.ltb x y = true ↔
  SpecFloat.SFcompare (Prim2SF x) (Prim2SF y) = Some Lt.
Proof.
  rewrite FloatAxioms.ltb_spec. unfold SpecFloat.SFltb.
  destruct (SpecFloat.SFcompare _ _) as [[]|]; split; congruence.
Qed.

Lemma float_is_nan_number (x : float) :
  SpecFloat.SFcompare (Prim2SF x) (Prim2SF x) = Some Eq →
  PrimFloat.is_nan x = false.
Proof.
  intros Hx. unfold PrimFloat.is_nan. rewrite FloatAxioms.eqb_spec.
  unfold SpecFloat.SFeqb. by rewrite Hx.
Qed.

Global Instance ieee_order : ArithOrder float.
Proof.
  split; simpl.
  - intros x y z Hxy%float_ltb_Lt Hyz%float_ltb_Lt.
    apply float_ltb_Lt. by apply (SFcompare_Lt_trans _ (Prim2SF y)).
  - intros x y Hxy%float_ltb_Lt.
    destruct (PrimFloat.ltb y x) eqn:Hyx; [|done].
    apply float_ltb_Lt in Hyx.
    pose proof (SFcompare_Lt_trans _ _ _ Hxy Hyx) as Hxx.
    destruct (SFcompare_self (Prim2SF x)); congruence.
  - intros x y Hxy%float_ltb_Lt.
    by apply float_is_nan_number, (SFcompare_Lt_number _ _ Hxy).
  - intros x y Hxy%float_ltb_Lt.
    by apply float_is_nan_number, (SFcompare_Lt_number _ _ Hxy).
Qed.

Global Instance exact_order : ArithOrder R.
Proof.
  split; simpl; try done.
  - intros x y z. repeat destruct (Rlt_dec _ _); try done. lra.
  - intros x y. repeat destruct (Rlt_dec _ _); try done. lra.
Qed.

(** ** findshift *)

Section FindshiftProps.
Context {F : Type} `{Arith F}.
Variable minimize : (params F → res (list F)) → params F → res (params F).

Lemma int_arange_lookup n k : k < n → int_arange n !! k = Some (Z.of_nat k).
Proof.
  intros Hk. unfold int_arange.
  by rewrite list_lookup_fmap, lookup_seq_lt.
Qed.

Lemma int_arange_length n : length (int_arange n) = n.
Proof. unfold int_arange. by rewrite length_fmap, length_seq. Qed.

(** What [findshift] returns once the fit has returned with numbers as
    standard errors. *)
Lemma findshift_run filedata guess iterate h min ea eb :
  minimize (objective (int_arange (nrows filedata)) filedata h)
    (start_params guess iterate) = Ok min →
  stderr (par_a min) = Some ea → stderr (par_b min) = Some eb →
  findshift minimize filedata guess iterate h =
  Ok ((linear_shift (value (par_a min)) (value (par_b min))
         (int_arange (nrows filedata)),
       shift_error ea eb (int_arange (nrows filedata)),
       ((value (par_a min), ea), (value (par_b min), eb))), h).
Proof.
  intros Hmin Ha Hb. unfold findshift. rewrite Hmin, res_bind_Ok.
  simpl. by rewrite Ha, Hb.
Qed.


(** C8: the uncertainty of the shift of every relative order is
    [sqrt(stderr(a)**2 + (order * stderr(b))**2)], the two standard errors
    taken as independent. *)
Theorem findshift_pixerr filedata guess iterate h min ea eb :
  minimize (objective (int_arange (nrows filedata)) filedata h)
    (start_params guess iterate) = Ok min →
  stderr (par_a min) = Some ea → stderr (par_b min) = Some eb →
  ∃ pixshift pixerr ab,
    findshift minimize filedata guess iterate h =
      Ok ((pixshift, pixerr, ab), h) ∧
    ab.1.2 = ea ∧ ab.2.2 = eb ∧
    length pixerr = nrows filedata ∧
    ∀ order, order < nrows filedata →
      let k := of_int (Z.of_nat order) in
      pixerr !! order =
      Some (fsqrt (fadd (fmul ea ea) (fmul (fmul k eb) (fmul k eb)))).
Proof.
  intros Hmin Ha Hb.
  eexists _, _, _. rewrite (findshift_run _ _ _ _ _ _ _ Hmin Ha Hb).
  split; [reflexivity|]. do 2 (split; [reflexivity|]). split.
  - unfold shift_error. by rewrite length_fmap, int_arange_length.
  - intros order Ho. unfold shift_error.
    by rewrite list_lookup_fmap, int_arange_lookup.
Qed.

(** A standard error that is [None] makes line 251 raise. *)
Lemma findshift_no_stderr filedata guess iterate h min :
  minimize (objective (int_arange (nrows filedata)) filedata h)
    (start_params guess iterate) = Ok min →
  stderr (par_a min) = None ∨ stderr (par_b min) = None →
  findshift minimize filedata guess iterate h = Raise TypeError.
Proof.
  intros Hmin Hnone. unfold findshift. rewrite Hmin, res_bind_Ok. simpl.
  destruct Hnone as [->| ->]; [done|]. by destruct (stderr (par_a min)).
Qed.

End FindshiftProps.

(** ** The heap monad *)

Section HeapLaws.
Context {F : Type} `{Arith F}.
Implicit Types h : list (ndarray F).

Lemma M_bind_run {A B} (m : M F A) (f : A → M F B) h a h' :
  m h = Ok (a, h') → (m ≫= f) h = f a h'.
Proof. intros E. unfold mbind, M_bind. by rewrite E. Qed.

Lemma M_bind_raise {A B} (m : M F A) (f : A → M F B) h e :
  m h = Raise e → (m ≫= f) h = Raise e.
Proof. intros E. unfold mbind, M_bind. by rewrite E. Qed.

Lemma load_run h l a : h !! l = Some a → load l h = Ok (a, h).
Proof. intros E. unfold load. by rewrite E. Qed.

Lemma alloc_run h (a : ndarray F) : alloc a h = Ok (length h, h ++ [a]).
Proof. reflexivity. Qed.

Lemma lift_run {A} (r : res A) a h : r = Ok a → lift r h = Ok (a, h).
Proof. by intros ->. Qed.

Lemma store_run h l a :
  l < length h → store l a h = Ok ((), <[l := a]> h).
Proof.
  intros Hl. unfold store.
  by replace (l <? length h) with true by (symmetry; apply Nat.ltb_lt; lia).
Qed.

Lemma np_divide_run (a b : ndarray F) n p :
  has_shape n p a → has_shape n p b → np_divide a b = Ok (divided a b).
Proof.
  intros (La & Pa & _) (Lb & Pb & _). unfold np_divide, divided.
  by rewrite La, Lb, Pa, Pb, !Nat.eqb_refl.
Qed.

Lemma divided_shape (a b : ndarray F) n p :
  has_shape n p a → has_shape n p b → has_shape n p (divided a b).
Proof.
  intros (La & Pa & Wa) (Lb & Pb & Wb). unfold has_shape, divided. simpl.
  split; [|split; [done|]].
  - rewrite length_zip_with. lia.
  - unfold wf_array. simpl. apply Forall_lookup. intros i r Hr.
    apply lookup_zip_with_Some in Hr as (ra & rb & -> & Hra & Hrb).
    rewrite length_zip_with.
    pose proof (Forall_lookup_1 _ _ _ _ Wa Hra) as Ha.
    pose proof (Forall_lookup_1 _ _ _ _ Wb Hrb) as Hb.
    simpl in Ha, Hb. lia.
Qed.

Lemma np_arange_length n : length (np_arange (F:=F) n) = n.
Proof. unfold np_arange. by rewrite length_fmap, length_seq. Qed.

Lemma shifted_blaze_shape (ob : ndarray F) pixshift n p :
  has_shape n p ob → n ≤ length pixshift →
  has_shape n p (shifted_blaze ob pixshift).
Proof.
  intros (Ln & Lp & Hwf) Hps. unfold has_shape, shifted_blaze. simpl.
  split; [|split; [done|]].
  - rewrite length_zip_with. lia.
  - unfold wf_array. simpl. apply Forall_lookup. intros i r Hr.
    apply lookup_zip_with_Some in Hr as (row & s & -> & _ & _).
    unfold shift_row. by rewrite length_fmap, np_arange_length.
Qed.

Lemma np_zeros_shape n p : has_shape n p (np_zeros (F:=F) (n, p)).
Proof.
  unfold has_shape, np_zeros, wf_array. simpl.
  rewrite length_replicate. split; [done|]. split; [done|].
  apply Forall_replicate. by rewrite length_replicate.
Qed.

(** One turn of the loop of [fluxcorrect] on the heap it runs in. *)
Lemma shift_order_run h (ob nb : ndarray F) pixnos pixshift order row s :
  rows ob !! order = Some row → pixshift !! order = Some s →
  length row = length pixnos → 2 ≤ length pixnos →
  order < length (rows nb) → ncols nb = length pixnos →
  shift_order (length h) (S (length h)) pixnos pixshift order (h ++ [ob; nb]) =
  Ok ((), h ++ [ob; {| ncols := ncols nb;
                       rows := <[order := shift_row pixnos row s]> (rows nb) |}]).
Proof.
  intros Hrow Hs Lrow Hp Ho Hc. unfold shift_order.
  assert (Hob : (h ++ [ob; nb]) !! length h = Some ob).
  { rewrite lookup_app_r by lia. by rewrite Nat.sub_diag. }
  assert (Hnb : (h ++ [ob; nb]) !! S (length h) = Some nb).
  { rewrite lookup_app_r by lia.
    by replace (S (length h) - length h) with 1 by lia. }
  rewrite (M_bind_run _ _ _ _ _ (load_run _ _ _ Hob)).
  rewrite (M_bind_run _ _ _ _ _ (lift_run _ _ _ (getrow_lookup _ _ _ Hrow))).
  rewrite (M_bind_run _ _ _ _ _
             (lift_run _ _ _ (interp1d_ok pixnos row Lrow Hp))).
  rewrite (M_bind_run _ _ _ _ _
             (lift_run _ _ _ (py_getitem_lookup _ _ _ Hs))).
  rewrite (M_bind_run _ _ _ _ _ (load_run _ _ _ Hnb)).
  assert (Hset : set_row nb order (shift_row pixnos row s) =
                 Ok {| ncols := ncols nb;
                       rows := <[order := shift_row pixnos row s]> (rows nb) |}).
  { unfold set_row.
    replace (order <? length (rows nb)) with true
      by (symmetry; apply Nat.ltb_lt; lia).
    unfold shift_row at 1. rewrite length_fmap, Hc, Nat.eqb_refl. done. }
  rewrite (M_bind_run _ _ _ _ _ (lift_run _ _ _ Hset)).
  rewrite store_run by (rewrite length_app; simpl; lia).
  do 2 f_equal.
  rewrite insert_app_r_alt by lia.
  by replace (S (length h) - length h) with 1 by lia.
Qed.

(** The loop of lines 76-79: from [order = k] on, with the rows before [k]
    already shifted, it ends with every row shifted. *)
Lemma m_for_shift h (ob : ndarray F) pixshift count k :
  wf_array ob → length (rows ob) ≤ length pixshift →
  count = 0 ∨ 2 ≤ ncols ob →
  k + count = length (rows ob) →
  let T := rows (shifted_blaze ob pixshift) in
  let Z := rows (np_zeros (F:=F) (np_shape ob)) in
  m_for count k
    (shift_order (length h) (S (length h)) (np_arange (ncols ob)) pixshift)
    (h ++ [ob; {| ncols := ncols ob; rows := take k T ++ drop k Z |}]) =
  Ok ((), h ++ [ob; shifted_blaze ob pixshift]).
Proof.
  intros Hwf Hps Hp Hk T Z.
  assert (LT : length T = length (rows ob)).
  { unfold T, shifted_blaze. simpl. rewrite length_zip_with. lia. }
  assert (LZ : length Z = length (rows ob)).
  { unfold Z, np_zeros. simpl. by rewrite length_replicate. }
  revert k Hk. induction count as [|count IH]; intros k Hk.
  - simpl. unfold mret, M_ret. do 4 f_equal.
    rewrite take_ge, drop_ge, app_nil_r by lia. done.
  - destruct Hp as [|Hp]; [done|].
    destruct (lookup_lt_is_Some_2 (rows ob) k) as [row Hrow]; [lia|].
    destruct (lookup_lt_is_Some_2 pixshift k) as [s Hs]; [lia|].
    destruct (lookup_lt_is_Some_2 Z k) as [z Hz]; [lia|].
    assert (HT : T !! k = Some (shift_row (np_arange (ncols ob)) row s)).
    { unfold T, shifted_blaze. simpl. rewrite lookup_zip_with, Hrow. simpl.
      by rewrite Hs. }
    assert (Hstep :
      shift_order (length h) (S (length h)) (np_arange (ncols ob)) pixshift k
        (h ++ [ob; {| ncols := ncols ob; rows := take k T ++ drop k Z |}]) =
      Ok ((), h ++ [ob; {| ncols := ncols ob;
                           rows := take (S k) T ++ drop (S k) Z |}])).
    { rewrite (shift_order_run h ob _ _ pixshift k row s Hrow Hs).
      - simpl. do 4 f_equal.
        rewrite (take_S_r _ _ _ HT), (drop_S _ _ _ Hz), <- app_assoc.
        rewrite insert_app_r_alt by (rewrite length_take; lia).
        rewrite length_take, LT.
        by replace (k - k `min` length (rows ob)) with 0 by lia.
      - rewrite np_arange_length.
        by apply (Forall_lookup_1 _ _ _ _ Hwf Hrow).
      - by rewrite np_arange_length.
      - simpl. rewrite length_app, length_take, length_drop. lia.
      - simpl. by rewrite np_arange_length. }
    cbn [m_for]. rewrite (M_bind_run _ _ _ _ _ Hstep).
    apply (IH (or_intror Hp) (S k)). lia.
Qed.

(** [fluxcorrect] on a well-shaped exposure: it allocates four arrays
    behind the heap it was given, and returns the last two. *)
Lemma fluxcorrect_run h filedata pixshift (net flux net_error : ndarray F) n p :
  h !! c_net filedata = Some net →
  h !! c_flux filedata = Some flux →
  h !! c_net_error filedata = Some net_error →
  has_shape n p net → has_shape n p flux → has_shape n p net_error →
  n ≤ length pixshift → n = 0 ∨ 2 ≤ p →
  let ob := divided net flux in
  let nb := shifted_blaze ob pixshift in
  fluxcorrect filedata pixshift h =
  Ok ((length h + 2, length h + 3),
      h ++ [ob; nb; divided net nb; divided net_error nb]).
Proof.
  intros Hnet Hflux Hne Snet Sflux Sne Hps Hp ob nb.
  pose proof (divided_shape _ _ _ _ Snet Sflux) as Sob. fold ob in Sob.
  pose proof (shifted_blaze_shape _ pixshift _ _ Sob Hps) as Snb. fold nb in Snb.
  destruct Sob as (Lob & Pob & Wob).
  unfold fluxcorrect.
  rewrite (M_bind_run _ _ _ _ _ (load_run _ _ _ Hnet)).
  rewrite (M_bind_run _ _ _ _ _ (load_run _ _ _ Hflux)).
  rewrite (M_bind_run _ _ _ _ _
             (lift_run _ _ _ (np_divide_run _ _ _ _ Snet Sflux))).
  fold ob.
  rewrite (M_bind_run _ _ _ _ _ (alloc_run _ _)).
  rewrite (M_bind_run _ _ _ _ _ (alloc_run _ _)).
  rewrite <- app_assoc. simpl app.
  replace (length (h ++ [ob])) with (S (length h))
    by (rewrite length_app; simpl; lia).
  assert (Hloop :
    m_for (np_shape ob).1 0
      (shift_order (length h) (S (length h)) (np_arange (np_shape ob).2)
         pixshift)
      (h ++ [ob; np_zeros (np_shape ob)]) = Ok ((), h ++ [ob; nb]))
    by (apply (m_for_shift h ob pixshift (length (rows ob)) 0 Wob); lia).
  rewrite (M_bind_run _ _ _ _ _ Hloop).
  rewrite (M_bind_run _ _ _ _ _
             (load_run (h ++ [ob; nb]) _ _ (lookup_app_l_Some _ _ _ _ Hnet))).
  assert (Hnb : (h ++ [ob; nb]) !! S (length h) = Some nb).
  { rewrite lookup_app_r by lia.
    by replace (S (length h) - length h) with 1 by lia. }
  rewrite (M_bind_run _ _ _ _ _ (load_run _ _ _ Hnb)).
  rewrite (M_bind_run _ _ _ _ _
             (lift_run _ _ _ (np_divide_run _ _ _ _ Snet Snb))).
  rewrite (M_bind_run _ _ _ _ _ (alloc_run _ _)).
  rewrite <- app_assoc. simpl app.
  rewrite (M_bind_run _ _ _ _ _
             (load_run (h ++ [ob; nb; divided net nb]) _ _
                (lookup_app_l_Some _ _ _ _ Hne))).
  assert (Hnb' : (h ++ [ob; nb; divided net nb]) !! S (length h) = Some nb).
  { rewrite lookup_app_r by lia.
    by replace (S (length h) - length h) with 1 by lia. }
  rewrite (M_bind_run _ _ _ _ _ (load_run _ _ _ Hnb')).
  rewrite (M_bind_run _ _ _ _ _
             (lift_run _ _ _ (np_divide_run _ _ _ _ Sne Snb))).
  rewrite (M_bind_run _ _ _ _ _ (alloc_run _ _)).
  rewrite <- app_assoc. simpl app.
  unfold mret, M_ret. rewrite !length_app. simpl length.
  do 3 f_equal; lia.
Qed.

End HeapLaws.

(** ** fluxcorrect *)

Section FluxcorrectProps.
Context {F : Type} `{Arith F}.

(** The two arrays [fluxcorrect] returns, where it puts them. *)
Lemma fluxcorrect_arrays (h : list (ndarray F)) filedata pixshift
  (net flux net_error : ndarray F) n p :
  h !! c_net filedata = Some net →
  h !! c_flux filedata = Some flux →
  h !! c_net_error filedata = Some net_error →
  has_shape n p net → has_shape n p flux → has_shape n p net_error →
  n ≤ length pixshift → n = 0 ∨ 2 ≤ p →
  ∃ h',
    fluxcorrect filedata pixshift h =
      Ok ((length h + 2, length h + 3), h') ∧
    let nb := shifted_blaze (divided net flux) pixshift in
    h' !! (length h + 2) = Some (divided net nb) ∧
    h' !! (length h + 3) = Some (divided net_error nb) ∧
    ∀ l a, h !! l = Some a → h' !! l = Some a.
Proof.
  intros Hnet Hflux Hne Snet Sflux Sne Hps Hp.
  eexists. split.
  { apply (fluxcorrect_run h filedata pixshift net flux net_error n p);
      done. }
  cbv zeta. split; [|split].
  - rewrite lookup_app_r by lia.
    by replace (length h + 2 - length h) with 2 by lia.
  - rewrite lookup_app_r by lia.
    by replace (length h + 3 - length h) with 3 by lia.
  - intros l a Hl. by apply lookup_app_l_Some.
Qed.

(** C7: on a well-shaped exposure [fluxcorrect] returns two new arrays of
    the shape of [net] and [flux], computed from [net], [flux], [net_error]
    and [pixshift] alone, and every array that existed before the call,
    the columns of the table among them, is as it was. *)
Theorem fluxcorrect_frame (h : list (ndarray F)) filedata pixshift
  (net flux net_error : ndarray F) n p :
  h !! c_net filedata = Some net →
  h !! c_flux filedata = Some flux →
  h !! c_net_error filedata = Some net_error →
  has_shape n p net → has_shape n p flux → has_shape n p net_error →
  n ≤ length pixshift → n = 0 ∨ 2 ≤ p →
  ∃ newflux newerr h',
    fluxcorrect filedata pixshift h = Ok ((newflux, newerr), h') ∧
    let nb := shifted_blaze (divided net flux) pixshift in
    h' !! newflux = Some (divided net nb) ∧
    h' !! newerr = Some (divided net_error nb) ∧
    has_shape n p (divided net nb) ∧
    has_shape n p (divided net_error nb) ∧
    np_shape (divided net nb) = np_shape net ∧
    np_shape (divided net nb) = np_shape flux ∧
    np_shape (divided net_error nb) = np_shape flux ∧
    length h ≤ newflux ∧ length h ≤ newerr ∧
    ∀ l a, h !! l = Some a → h' !! l = Some a.
Proof.
  intros Hnet Hflux Hne Snet Sflux Sne Hps Hp.
  destruct (fluxcorrect_arrays h filedata pixshift net flux net_error n p)
    as (h' & Hrun & Hnf & Hnerr & Hkeep); try done.
  exists (length h + 2), (length h + 3), h'. split; [done|].
  cbv zeta.
  pose proof (divided_shape _ _ _ _ Snet Sflux) as Sob.
  pose proof (shifted_blaze_shape _ pixshift _ _ Sob Hps) as Snb.
  pose proof (divided_shape _ _ _ _ Snet Snb) as Snf.
  pose proof (divided_shape _ _ _ _ Sne Snb) as Snerr.
  do 4 (split; [done|]).
  destruct Snet as (L1 & P1 & _), Sflux as (L2 & P2 & _),
    Snf as (L3 & P3 & _), Snerr as (L4 & P4 & _).
  unfold np_shape. rewrite L1, L2, L3, L4, P1, P2, P3, P4.
  do 3 (split; [done|]). split; [lia|]. split; [lia|]. done.
Qed.

End FluxcorrectProps.

(** ** The zero shift in exact arithmetic *)

Section ZeroShift.

Local Open Scope R_scope.

Lemma exact_np_less (a v : R) :
  np_less a v = if Rlt_dec a v then true else false.
Proof. unfold np_less. simpl. by rewrite orb_false_r. Qed.

Lemma exact_arange_lookup p k :
  (k < p)%nat → np_arange (F:=R) p !! k = Some (IZR (Z.of_nat k)).
Proof.
  intros Hk. unfold np_arange. by rewrite list_lookup_fmap, lookup_seq_lt.
Qed.

Lemma exact_arange_ascending p : ascending (np_arange (F:=R) p).
Proof.
  unfold np_arange, ascending. generalize 0%nat.
  induction p as [|p IH]; intros a; [done|].
  simpl. split; [|apply IH].
  destruct p as [|p]; [done|]. simpl.
  destruct (Rlt_dec _ _) as [|Hn]; [done|].
  exfalso. apply Hn, IZR_lt. lia.
Qed.





Lemma exact_row_divide_back (a b : list R) :
  length a = length b →
  Forall (λ x, feqb x (of_int 0) = false) a →
  Forall (λ x, feqb x (of_int 0) = false) b →
  zip_with fdiv a (zip_with fdiv a b) = b.
Proof.
  intros Hl Ha. revert b Hl. induction Ha as [|x a Hx _ IH]; intros b Hl Hb.
  - by destruct b.
  - destruct b as [|y b]; [done|].
    apply Forall_cons in Hb as [Hy Hb]. simpl in *.
    rewrite IH by (done || lia). f_equal.
    destruct (Req_dec_T x 0); [done|]. destruct (Req_dec_T y 0); [done|].
    by field.
Qed.

Lemma exact_divide_back (net flux : ndarray R) n p :
  has_shape n p net → has_shape n p flux →
  nowhere_zero net → nowhere_zero flux →
  divided net (divided net flux) = flux.
Proof.
  intros (Ln & Pn & Wn) (Lf & Pf & Wf) Zn Zf.
  destruct net as [cn rn], flux as [cf rf].
  unfold divided, nowhere_zero, wf_array in *. simpl in *. subst cn cf.
  f_equal. apply list_eq. intros i. rewrite !lookup_zip_with.
  destruct (rn !! i) as [a|] eqn:Ha; simpl.
  - destruct (lookup_lt_is_Some_2 rf i) as [b Hb].
    { apply lookup_lt_Some in Ha. lia. }
    rewrite Hb. simpl. f_equal.
    apply exact_row_divide_back.
    + rewrite (Forall_lookup_1 _ _ _ _ Wn Ha).
      by rewrite (Forall_lookup_1 _ _ _ _ Wf Hb).
    + apply (Forall_lookup_1 _ _ _ _ Zn Ha).
    + apply (Forall_lookup_1 _ _ _ _ Zf Hb).
  - symmetry. apply lookup_ge_None_2.
    apply lookup_ge_None_1 in Ha. lia.
Qed.


End ZeroShift.

(** ** fluxfix: what is written back *)

Section FluxfixProps.
Context {F : Type} `{Arith F}.
Variable minimize : (params F → res (list F)) → params F → res (params F).
Implicit Types (h : list (ndarray F)) (t : table).

Lemma snapshot_Some h t d :
  snapshot h t = Some d ↔
  h !! c_wavelength t = Some (d_wavelength d) ∧
  h !! c_flux t = Some (d_flux d) ∧
  h !! c_error t = Some (d_error d) ∧
  h !! c_net t = Some (d_net d) ∧
  h !! c_net_error t = Some (d_net_error d).
Proof.
  unfold snapshot. split.
  - destruct (h !! c_wavelength t), (h !! c_flux t), (h !! c_error t),
      (h !! c_net t), (h !! c_net_error t); simpl; try done.
    by intros [= <-].
  - intros (-> & -> & -> & -> & ->). simpl. by destruct d.
Qed.

Lemma snapshot_app h extra t d :
  snapshot h t = Some d → snapshot (h ++ extra) t = Some d.
Proof.
  rewrite !snapshot_Some. intros (? & ? & ? & ? & ?).
  repeat split; by apply lookup_app_l_Some.
Qed.

Lemma wf_table_app h extra t : wf_table h t → wf_table (h ++ extra) t.
Proof.
  intros (d & p & Hd & Hrest). exists d, p. split; [|done].
  by apply snapshot_app.
Qed.

(** [residcalc] on a well-shaped exposure returns and leaves the heap as
    it is. *)
Lemma residcalc_returns h t fl er (wavelength flux err : ndarray F) n p :
  residcalc_reads h t fl er wavelength flux err →
  has_shape n p wavelength → has_shape n p flux → has_shape n p err →
  2 ≤ p → 1 ≤ n →
  ∃ r, residcalc t fl er 5 h = Ok (r, h).
Proof.
  intros Hreads Hw Hf He Hp Hn.
  destruct (residcalc_arrays_at wavelength flux err n p 5)
    as (rs & es & Hrun & _); try done.
  exists (rs, es). by rewrite (residcalc_run _ _ _ _ _ _ _ _ Hreads), Hrun.
Qed.

(** [generateplot] on a well-shaped extension and corrected arrays of its
    shape returns and leaves the heap as it is. *)
Lemma generateplot_returns h t newflux newerr pixshift (nf ne : ndarray F) p d :
  snapshot h t = Some d →
  h !! newflux = Some nf → h !! newerr = Some ne →
  has_shape (nrows t) p (d_wavelength d) →
  has_shape (nrows t) p (d_flux d) →
  has_shape (nrows t) p (d_error d) →
  has_shape (nrows t) p nf → has_shape (nrows t) p ne →
  2 ≤ p → 1 ≤ nrows t →
  ∃ fig, generateplot t newflux newerr pixshift None None h = Ok (fig, h).
Proof.
  intros Hd Hnf Hne Sw Sf Se Snf Sne Hp Hn.
  apply snapshot_Some in Hd as (Hw & Hf & He & _ & _).
  destruct (residcalc_returns h t None None _ _ _ _ p
              (conj Hw (conj Hf He)) Sw Sf Se Hp Hn) as [old Hold].
  destruct (residcalc_returns h t (Some newflux) (Some newerr) _ _ _ _ p
              (conj Hw (conj Hnf Hne)) Sw Snf Sne Hp Hn) as [new Hnew].
  eexists. unfold generateplot.
  rewrite (M_bind_run _ _ _ _ _ (load_run _ _ _ Hf)).
  rewrite (M_bind_run _ _ _ _ _ (load_run _ _ _ Hw)).
  rewrite (M_bind_run _ _ h (default old.1 None, default old.2 None) h).
  - rewrite (M_bind_run _ _ _ _ _ Hnew). reflexivity.
  - by rewrite (M_bind_run _ _ _ _ _ Hold).
Qed.

(** One turn of the loop over the extensions: four arrays are allocated
    behind the heap, the last two are the corrected flux and error, of the
    shape of the table's columns, and the names are bound to them. *)
Lemma fluxfix_ext_run h t guess d p :
  fit_returns minimize →
  snapshot h t = Some d → 1 ≤ nrows t → 2 ≤ p →
  has_shape (nrows t) p (d_wavelength d) →
  has_shape (nrows t) p (d_flux d) →
  has_shape (nrows t) p (d_error d) →
  has_shape (nrows t) p (d_net d) →
  has_shape (nrows t) p (d_net_error d) →
  ∃ a b nf ne,
    fluxfix_ext minimize guess t h =
      Ok ({| v_filedata := t; v_newflux := length h + 2;
             v_newerr := length h + 3 |}, h ++ [a; b; nf; ne]) ∧
    has_shape (nrows t) p nf ∧ has_shape (nrows t) p ne.
Proof.
  intros Hfit Hd Hn Hp Sw Sf Se Snet Sne.
  pose proof Hd as Hd'.
  apply snapshot_Some in Hd' as (Hw & Hf & He & Hnet & Hne).
  destruct (Hfit (objective (int_arange (nrows t)) t h)
              (start_params guess true)) as (min & ea & eb & Hmin & Ha & Hb).
  pose proof (findshift_run minimize t guess true h min ea eb Hmin Ha Hb)
    as Hshift.
  set (pixshift := linear_shift (value (par_a min)) (value (par_b min))
                     (int_arange (nrows t))) in *.
  assert (Lps : length pixshift = nrows t).
  { unfold pixshift, linear_shift. by rewrite length_fmap, int_arange_length. }
  pose proof (fluxcorrect_run h t pixshift _ _ _ (nrows t) p
                Hnet Hf Hne Snet Sf Sne ltac:(lia) ltac:(lia)) as Hcorr.
  cbv zeta in Hcorr.
  set (ob := divided (d_net d) (d_flux d)) in *.
  set (nb := shifted_blaze ob pixshift) in *.
  assert (Snb : has_shape (nrows t) p nb).
  { apply shifted_blaze_shape; [by apply divided_shape|lia]. }
  pose proof (divided_shape _ _ _ _ Snet Snb) as Snf.
  pose proof (divided_shape _ _ _ _ Sne Snb) as Snerr.
  set (h' := h ++ [ob; nb; divided (d_net d) nb; divided (d_net_error d) nb])
    in *.
  destruct (generateplot_returns h' t (length h + 2) (length h + 3) pixshift
              (divided (d_net d) nb) (divided (d_net_error d) nb) p d)
    as [fig Hfig]; try done.
  { by apply snapshot_app. }
  { unfold h'. rewrite lookup_app_r by lia.
    by replace (length h + 2 - length h) with 2 by lia. }
  { unfold h'. rewrite lookup_app_r by lia.
    by replace (length h + 3 - length h) with 3 by lia. }
  exists ob, nb, (divided (d_net d) nb), (divided (d_net_error d) nb).
  split; [|done].
  unfold fluxfix_ext.
  rewrite (M_bind_run _ _ _ _ _ Hshift). cbn [fst snd].
  rewrite (M_bind_run _ _ _ _ _ Hcorr). cbn [fst snd].
  rewrite (M_bind_run _ _ _ _ _ Hfig). reflexivity.
Qed.

(** The loop over the extensions of a file that has some: the heap grows,
    and the names are left bound by the turn of the last extension. *)
Lemma ext_loop_run h guess front lastt vars :
  fit_returns minimize →
  Forall (wf_table h) (front ++ [lastt]) →
  ∃ e0 a b nf ne d p,
    ext_loop minimize guess (front ++ [lastt]) vars h =
      Ok (Some {| v_filedata := lastt; v_newflux := length (h ++ e0) + 2;
                  v_newerr := length (h ++ e0) + 3 |},
          (h ++ e0) ++ [a; b; nf; ne]) ∧
    fluxfix_ext minimize guess lastt (h ++ e0) =
      Ok ({| v_filedata := lastt; v_newflux := length (h ++ e0) + 2;
             v_newerr := length (h ++ e0) + 3 |},
          (h ++ e0) ++ [a; b; nf; ne]) ∧
    snapshot h lastt = Some d ∧
    has_shape (nrows lastt) p (d_flux d) ∧
    has_shape (nrows lastt) p (d_error d) ∧
    has_shape (nrows lastt) p nf ∧ has_shape (nrows lastt) p ne.
Proof.
  intros Hfit. revert h vars.
  induction front as [|t front IH]; intros h vars Hwf.
  - apply Forall_cons in Hwf as [(d & p & Hd & Hn & Hp & Sw & Sf & Se & Sn & Sne) _].
    destruct (fluxfix_ext_run h lastt guess d p)
      as (a & b & nf & ne & Hrun & Snf & Snerr); try done.
    exists [], a, b, nf, ne, d, p. rewrite app_nil_r.
    split; [|done]. simpl ext_loop.
    rewrite (M_bind_run _ _ _ _ _ Hrun). reflexivity.
  - simpl in Hwf. apply Forall_cons in Hwf as [Ht Hwf].
    destruct Ht as (d & p & Hd & Hn & Hp & Sw & Sf & Se & Sn & Sne).
    destruct (fluxfix_ext_run h t guess d p)
      as (a & b & nf & ne & Hrun & _); try done.
    destruct (IH (h ++ [a; b; nf; ne])
                (Some {| v_filedata := t; v_newflux := length h + 2;
                         v_newerr := length h + 3 |}))
      as (e0 & a' & b' & nf' & ne' & d' & p' & Hloop & Hlast & Hd' & Hrest).
    { eapply Forall_impl; [exact Hwf|]. intros t'. apply wf_table_app. }
    assert (Hwl : wf_table h lastt).
    { rewrite Forall_forall in Hwf. apply Hwf.
      apply elem_of_app. right. by left. }
    destruct Hwl as (d0 & p0 & Hd0 & _).
    rewrite (snapshot_app _ _ _ _ Hd0) in Hd'. injection Hd' as <-.
    exists ([a; b; nf; ne] ++ e0), a', b', nf', ne', d0, p'.
    rewrite !(app_assoc h). split; [|done].
    simpl ext_loop. rewrite (M_bind_run _ _ _ _ _ Hrun). exact Hloop.
Qed.

Lemma elem_of_concat (x : loc) (ls : list (list loc)) :
  x ∈ concat ls ↔ ∃ l, x ∈ l ∧ l ∈ ls.
Proof.
  induction ls as [|l ls IH]; simpl.
  - split; [by intros ?%elem_of_nil|by intros (l & _ & ?%elem_of_nil)].
  - rewrite elem_of_app, IH. split.
    + intros [Hx|(l' & Hx & Hl')].
      * exists l. split; [done|by left].
      * exists l'. split; [done|by right].
    + intros (l' & Hx & [->|Hl']%elem_of_cons); [by left|].
      right. by exists l'.
Qed.

Lemma assign_column_run h l (old v : ndarray F) n p :
  h !! l = Some old → has_shape n p old → has_shape n p v →
  assign_column l v h = Ok ((), <[l := v]> h).
Proof.
  intros Hold (Lo & Po & _) (Lv & Pv & _). unfold assign_column.
  rewrite (M_bind_run _ _ _ _ _ (load_run _ _ _ Hold)).
  rewrite Lo, Lv, Po, Pv, !Nat.eqb_refl. simpl.
  apply store_run. by apply lookup_lt_Some in Hold.
Qed.

Lemma read_table_run h t d :
  snapshot h t = Some d → read_table t h = Ok (d, h).
Proof.
  intros (Hw & Hf & He & Hn & Hne)%snapshot_Some. unfold read_table.
  rewrite (M_bind_run _ _ _ _ _ (load_run _ _ _ Hw)).
  rewrite (M_bind_run _ _ _ _ _ (load_run _ _ _ Hf)).
  rewrite (M_bind_run _ _ _ _ _ (load_run _ _ _ He)).
  rewrite (M_bind_run _ _ _ _ _ (load_run _ _ _ Hn)).
  rewrite (M_bind_run _ _ _ _ _ (load_run _ _ _ Hne)).
  by destruct d.
Qed.

Lemma writeto_run h exts ds :
  Forall2 (λ t d, snapshot h t = Some d) exts ds →
  writeto exts h = Ok (ds, h).
Proof.
  induction 1 as [|t d exts ds Hd _ IH]; [done|].
  simpl writeto.
  rewrite (M_bind_run _ _ _ _ _ (read_table_run _ _ _ Hd)).
  by rewrite (M_bind_run _ _ _ _ _ IH).
Qed.

(** Tables none of whose columns is [cf] or [ce] read the same in a heap
    that differs at these two locations only. *)
Lemma snapshots_kept h h3 front (cf ce : loc) :
  (∀ l x, h !! l = Some x → l ≠ cf → l ≠ ce → h3 !! l = Some x) →
  Forall (wf_table h) front →
  (∀ t, t ∈ front → ∀ c, c ∈ columns t → c ≠ cf ∧ c ≠ ce) →
  ∃ ds,
    Forall2 (λ t d, snapshot h t = Some d ∧ snapshot h3 t = Some d) front ds.
Proof.
  intros Hkeep. induction front as [|t front IH]; intros Hwf Hin.
  { by exists []. }
  apply Forall_cons in Hwf as [(dt & _ & Hdt & _) Hwf].
  destruct IH as [ds Hds]; [done| |].
  { intros t' Ht'. apply Hin. by right. }
  exists (dt :: ds). constructor; [|done]. split; [done|].
  pose proof Hdt as Hc.
  apply snapshot_Some in Hc as (H1 & H2 & H3 & H4 & H5).
  assert (Hnot : ∀ c, c ∈ columns t → c ≠ cf ∧ c ≠ ce).
  { intros c Hc. apply (Hin t); [by left|done]. }
  assert (Hcol : ∀ c x, c ∈ columns t → h !! c = Some x → h3 !! c = Some x).
  { intros c x Hc Hx. destruct (Hnot c Hc). by apply Hkeep. }
  apply snapshot_Some.
  repeat split; apply Hcol; try done;
    unfold columns; rewrite !elem_of_cons; auto 10.
Qed.

(** C10: of a file with table extensions, the one written is the last
    extension with the flux and error arrays that the turn of the last
    extension computed; every earlier extension is written with the arrays
    it was read with, its corrected arrays being dropped. *)
Theorem fluxfix_writes_last_only h guess front lastt vars :
  fit_returns minimize →
  Forall (wf_table h) (front ++ [lastt]) →
  NoDup (concat (columns <$> (front ++ [lastt]))) →
  ∃ v out h' d nf ne h0 h1,
    fluxfix_file minimize guess (front ++ [lastt]) vars h =
      Ok ((Some v, out), h') ∧
    length out = length front + 1 ∧
    (∀ k t, front !! k = Some t → out !! k = snapshot h t) ∧
    snapshot h lastt = Some d ∧
    out !! length front = Some (with_flux_error d nf ne) ∧
    (∀ l a, h !! l = Some a → h0 !! l = Some a) ∧
    fluxfix_ext minimize guess lastt h0 = Ok (v, h1) ∧
    v_filedata v = lastt ∧
    h1 !! v_newflux v = Some nf ∧ h1 !! v_newerr v = Some ne.
Proof.
  intros Hfit Hwf Hnd.
  destruct (ext_loop_run h guess front lastt vars Hfit Hwf)
    as (e0 & a & b & nf & ne & d & p & Hloop & Hlast & Hd & Sf & Se & Snf & Sne).
  set (L := length (h ++ e0)) in *.
  set (h1 := (h ++ e0) ++ [a; b; nf; ne]) in *.
  set (v := {| v_filedata := lastt; v_newflux := L + 2; v_newerr := L + 3 |})
    in *.
  set (cf := c_flux lastt). set (ce := c_error lastt).
  set (h2 := <[cf := nf]> h1). set (h3 := <[ce := ne]> h2).
  (* the columns of the last extension *)
  pose proof Hd as Hcols.
  apply snapshot_Some in Hcols as (Hw & Hf & He & Hn & Hne).
  assert (Hpre : ∀ l x, h !! l = Some x → h1 !! l = Some x).
  { intros l x Hl. unfold h1. by do 2 apply lookup_app_l_Some. }
  assert (HL : length h ≤ L) by (unfold L; rewrite length_app; lia).
  assert (Hnf : h1 !! (L + 2) = Some nf).
  { unfold h1. rewrite lookup_app_r by (unfold L; lia).
    by replace (L + 2 - length (h ++ e0)) with 2 by (unfold L; lia). }
  assert (Hnerr : h1 !! (L + 3) = Some ne).
  { unfold h1. rewrite lookup_app_r by (unfold L; lia).
    by replace (L + 3 - length (h ++ e0)) with 3 by (unfold L; lia). }
  (* no two columns share a location *)
  rewrite fmap_app, concat_app in Hnd. simpl in Hnd. rewrite ?app_nil_r in Hnd.
  apply NoDup_app in Hnd as (_ & Hdisj & Hndl).
  assert (Hfe : cf ≠ ce).
  { unfold columns in Hndl. rewrite !NoDup_cons in Hndl.
    destruct Hndl as (_ & Hcf & _). intros Heq. apply Hcf.
    unfold cf, ce in Heq. rewrite Heq. by left. }
  assert (Hcf_lt : cf < length h) by (by apply lookup_lt_Some in Hf).
  assert (Hce_lt : ce < length h) by (by apply lookup_lt_Some in He).
  (* what the heap holds after the two assignments *)
  assert (Hkeep : ∀ l x, h !! l = Some x → l ≠ cf → l ≠ ce → h3 !! l = Some x).
  { intros l x Hl Hcf Hce. unfold h3, h2.
    rewrite !list_lookup_insert_ne by done. by apply Hpre. }
  assert (Hh3f : h3 !! cf = Some nf).
  { unfold h3, h2. rewrite list_lookup_insert_ne by done.
    apply list_lookup_insert_eq. unfold h1. rewrite !length_app. lia. }
  assert (Hh3e : h3 !! ce = Some ne).
  { unfold h3. apply list_lookup_insert_eq. unfold h2.
    rewrite length_insert. unfold h1. rewrite !length_app. lia. }
  (* the extensions as written *)
  assert (Hfront : ∃ ds,
    Forall2 (λ t d, snapshot h t = Some d ∧ snapshot h3 t = Some d) front ds).
  { apply Forall_app in Hwf as [Hwf _].
    apply (snapshots_kept h h3 front cf ce Hkeep Hwf).
    intros t Ht c Hc.
    assert (Hni : c ∉ columns lastt).
    { apply Hdisj. apply elem_of_concat.
      exists (columns t). split; [done|].
      apply list_elem_of_fmap. by exists t. }
    split; intros ->; apply Hni; unfold columns, cf, ce;
      rewrite !elem_of_cons; auto 10. }
  destruct Hfront as [ds Hds].
  assert (Hlastw : snapshot h3 lastt = Some (with_flux_error d nf ne)).
  { unfold columns in Hndl. rewrite !NoDup_cons in Hndl.
    rewrite !elem_of_cons in Hndl.
    apply snapshot_Some. simpl. fold cf ce.
    repeat split; try done; apply Hkeep; try done; unfold cf, ce;
      intros Heq; rewrite Heq in Hndl; tauto. }
  assert (Hout : writeto (front ++ [lastt]) h3 =
                 Ok (ds ++ [with_flux_error d nf ne], h3)).
  { apply writeto_run. apply Forall2_app.
    - eapply Forall2_impl; [exact Hds|]. by intros t dt [_ ?].
    - by constructor. }
  exists v, (ds ++ [with_flux_error d nf ne]), h3, d, nf, ne, (h ++ e0), h1.
  pose proof (Forall2_length _ _ _ Hds) as Hlen.
  split; [|split; [|split; [|split; [|split; [|split; [|split; [|split]]]]]]];
    try done.
  - unfold fluxfix_file.
    rewrite (M_bind_run _ _ _ _ _ Hloop).
    rewrite (M_bind_run _ _ _ _ _ (load_run _ _ _ Hnf)).
    rewrite (M_bind_run _ _ _ _ _
               (assign_column_run h1 cf _ nf _ p (Hpre _ _ Hf) Sf Snf)).
    fold h2.
    assert (Hnerr2 : h2 !! (L + 3) = Some ne).
    { unfold h2. rewrite list_lookup_insert_ne by lia. done. }
    rewrite (M_bind_run _ _ _ _ _ (load_run _ _ _ Hnerr2)).
    assert (He2 : h2 !! ce = Some (d_error d)).
    { unfold h2. rewrite list_lookup_insert_ne by done. by apply Hpre. }
    rewrite (M_bind_run _ _ _ _ _
               (assign_column_run h2 ce _ ne _ p He2 Se Sne)).
    fold h3. by rewrite (M_bind_run _ _ _ _ _ Hout).
  - rewrite length_app. simpl. lia.
  - intros k t Hk. rewrite lookup_app_l by (apply lookup_lt_Some in Hk; lia).
    destruct (Forall2_lookup_l _ _ _ _ _ Hds Hk) as (dt & -> & Hdt & _).
    by rewrite Hdt.
  - rewrite lookup_app_r by lia. by rewrite Hlen, Nat.sub_diag.
  - intros l x Hl. by apply lookup_app_l_Some.
Qed.

End FluxfixProps.

(** * The claims on the example exposures *)

(** C1: on the dark exposure the loop of lines 122-127 runs, the sums are
    the numpy scalars 0.0, the division of line 129 raises nothing, and
    [residcalc] returns NaN for the residual and for its error, not the
    fallback 0 and 1 of lines 132-133. *)
Theorem residcalc_zero_flux_not_fallback :
  pair_sums ex_wave (ex_const 0 0) ex_err 5 0 =
    Ok {| fluxsum0 := NpFloat 0%float; fluxsum1 := NpFloat 0%float;
          errsum0 := NpFloat 0.5%float; errsum1 := NpFloat 0.5%float |} ∧
  residcalc ex_table None None 5 ex_heap_dark =
    Ok (([PrimFloat.nan], [PrimFloat.nan]), ex_heap_dark).
Proof. split; vm_compute; reflexivity. Qed.


(** On the consistent exposure the round trip is exact. *)
Example fluxcorrect_zero_shift_example :
  zero_shift_reproduces 0%float ex_table ex_heap = true.
Proof. vm_compute. reflexivity. Qed.

Lemma ex_shape (a b : float) : has_shape 2 12 (ex_const a b).
Proof. repeat split. repeat constructor. Qed.

Lemma ex_wave_shape : has_shape 2 12 ex_wave.
Proof. repeat split. repeat constructor. Qed.

Lemma residcalc_short_overlap_witness :
  pair_sums ex_wave ex_flux ex_err 6 0 = Ok sums_init ∧
  ∃ rs es,
    residcalc ex_table None None 6 ex_heap = Ok ((rs, es), ex_heap) ∧
    rs !! 0 = Some (of_int 0) ∧ es !! 0 = Some (of_int 1).
Proof.
  apply (residcalc_short_overlap ex_heap ex_table None None
           ex_wave ex_flux ex_err 2 12 6 0
           (float_of_Z <$> seqZ 100 12) (float_of_Z <$> seqZ 106 12)).
  - repeat split.
  - exact ex_wave_shape.
  - exact (ex_shape 2 1).
  - exact (ex_shape 0.5 0.5).
  - lia.
  - lia.
  - reflexivity.
  - reflexivity.
  - vm_compute. discriminate.
Defined.

Lemma residcalc_ratio_witness :
  ∃ rs es,
    residcalc ex_table None None 5 ex_heap = Ok ((rs, es), ex_heap) ∧
    let f0 := 4%float in
    let f1 := 2%float in
    let resid := fsub (of_int 1) (fdiv f0 f1) in
    rs !! 0 = Some resid ∧
    es !! 0 =
      Some (fmul (fabs (fsub (of_int 1) resid))
              (fsqrt (fadd (fdiv 0.5%float (fmul f0 f0))
                           (fdiv 0.5%float (fmul f1 f1))))).
Proof.
  apply (residcalc_ratio ex_heap ex_table None None ex_wave ex_flux ex_err
           2 12 5 0
           {| fluxsum0 := NpFloat 4%float; fluxsum1 := NpFloat 2%float;
              errsum0 := NpFloat 0.5%float; errsum1 := NpFloat 0.5%float |}).
  - repeat split.
  - exact ex_wave_shape.
  - exact (ex_shape 2 1).
  - exact (ex_shape 0.5 0.5).
  - lia.
  - lia.
  - lia.
  - vm_compute. reflexivity.
  - vm_compute. reflexivity.
  - vm_compute. reflexivity.
Defined.

Lemma residcalc_overlap_sums_witness :
  let w0 := float_of_Z <$> seqZ 100 12 in
  let w1 := float_of_Z <$> seqZ 106 12 in
  let last := List.last w1 (of_int 0) in
  (∀ k, k ∈ overlap_of w0 last ↔ ∃ w, w0 !! k = Some w ∧ fleb w last = true) ∧
  overlap_of w0 last = spec_overlap w0 last ∧
  pair_sums ex_wave ex_flux ex_err 5 0 =
    Ok (spec_sums w0 (replicate 12 2%float) (replicate 12 0.5%float)
          (mk_interp w1 (replicate 12 1%float))
          (mk_interp w1 (replicate 12 0.5%float))
          (trim (Z.to_nat 5) (spec_overlap w0 last))).
Proof.
  apply (residcalc_overlap_sums ex_wave ex_flux ex_err 2 12 5 0
           (float_of_Z <$> seqZ 100 12) (float_of_Z <$> seqZ 106 12)
           (replicate 12 2%float) (replicate 12 1%float)
           (replicate 12 0.5%float) (replicate 12 0.5%float)).
  - exact ex_wave_shape.
  - exact (ex_shape 2 1).
  - exact (ex_shape 0.5 0.5).
  - lia.
  - lia.
  - lia.
  - reflexivity.
  - reflexivity.
  - reflexivity.
  - reflexivity.
  - reflexivity.
  - reflexivity.
Defined.


(** Beyond the last sample the value goes on along the last segment: at 6
    it is 10, not the boundary value 15. *)
Example interp1d_extrapolates_example :
  (λ f, interp_call f 6%float) <$> interp1d [1; 2; 4]%float [10; 20; 15]%float
  = Ok 10%float.
Proof. vm_compute. reflexivity. Qed.


Lemma ex_minimize_returns : fit_returns ex_minimize.
Proof. intros obj pars. eexists _, _, _. repeat split. Qed.


Lemma findshift_pixerr_witness :
  ∃ pixshift pixerr ab,
    findshift ex_minimize ex_table (1%float, 0.5%float) true ex_heap =
      Ok ((pixshift, pixerr, ab), ex_heap) ∧
    ab.1.2 = 0.25%float ∧ ab.2.2 = 0.5%float ∧
    length pixerr = nrows ex_table ∧
    ∀ order, order < nrows ex_table →
      let k := of_int (Z.of_nat order) in
      pixerr !! order =
      Some (fsqrt (fadd (fmul 0.25%float 0.25%float)
                        (fmul (fmul k 0.5%float) (fmul k 0.5%float)))).
Proof.
  apply (findshift_pixerr ex_minimize ex_table (1%float, 0.5%float) true
           ex_heap
           {| par_a := {| value := 1%float; stderr := Some 0.25%float;
                          vary := true |};
              par_b := {| value := 0.5%float; stderr := Some 0.5%float;
                          vary := true |} |}).
  - reflexivity.
  - reflexivity.
  - reflexivity.
Defined.

Lemma fluxcorrect_frame_witness :
  let pixshift := [1; 1.5]%float in
  ∃ newflux newerr h',
    fluxcorrect ex_table pixshift ex_heap = Ok ((newflux, newerr), h') ∧
    let nb := shifted_blaze (divided ex_net ex_flux) pixshift in
    h' !! newflux = Some (divided ex_net nb) ∧
    h' !! newerr = Some (divided ex_net_error nb) ∧
    has_shape 2 12 (divided ex_net nb) ∧
    has_shape 2 12 (divided ex_net_error nb) ∧
    np_shape (divided ex_net nb) = np_shape ex_net ∧
    np_shape (divided ex_net nb) = np_shape ex_flux ∧
    np_shape (divided ex_net_error nb) = np_shape ex_flux ∧
    length ex_heap ≤ newflux ∧ length ex_heap ≤ newerr ∧
    ∀ l a, ex_heap !! l = Some a → h' !! l = Some a.
Proof.
  apply (fluxcorrect_frame ex_heap ex_table [1; 1.5]%float
           ex_net ex_flux ex_net_error 2 12).
  - reflexivity.
  - reflexivity.
  - reflexivity.
  - exact (ex_shape 4 2).
  - exact (ex_shape 2 1).
  - exact (ex_shape 1 1).
  - simpl. lia.
  - right. lia.
Defined.

Lemma rx_shape (a b : R) : has_shape 1 2 (rx_row a b).
Proof. repeat split. repeat constructor. Qed.

Lemma rx_nowhere_zero (a b : R) :
  a ≠ 0%R → b ≠ 0%R → nowhere_zero (rx_row a b).
Proof.
  intros Ha Hb. unfold nowhere_zero. simpl.
  repeat constructor; simpl; by destruct (Req_dec_T _ _).
Qed.


Lemma ex_wf_table : wf_table ex_heap2 ex_table.
Proof.
  exists {| d_wavelength := ex_wave; d_flux := ex_flux; d_error := ex_err;
            d_net := ex_net; d_net_error := ex_net_error |}, 12.
  split; [reflexivity|]. split; [simpl; lia|]. split; [lia|].
  repeat split; repeat constructor.
Qed.

Lemma ex_wf_table2 : wf_table ex_heap2 ex_table2.
Proof.
  exists {| d_wavelength := ex_wave; d_flux := ex_flux; d_error := ex_err;
            d_net := ex_net; d_net_error := ex_net_error |}, 12.
  split; [reflexivity|]. split; [simpl; lia|]. split; [lia|].
  repeat split; repeat constructor.
Qed.

Lemma ex_columns_apart :
  NoDup (concat (columns <$> ([ex_table] ++ [ex_table2]))).
Proof. apply NoDup_ListNoDup. repeat constructor; simpl; lia. Qed.

Lemma fluxfix_writes_last_only_witness :
  ∃ v out h' d nf ne h0 h1,
    fluxfix_file ex_minimize (1%float, 0.5%float) ([ex_table] ++ [ex_table2])
      None ex_heap2 = Ok ((Some v, out), h') ∧
    length out = length [ex_table] + 1 ∧
    (∀ k t, [ex_table] !! k = Some t → out !! k = snapshot ex_heap2 t) ∧
    snapshot ex_heap2 ex_table2 = Some d ∧
    out !! length [ex_table] = Some (with_flux_error d nf ne) ∧
    (∀ l a, ex_heap2 !! l = Some a → h0 !! l = Some a) ∧
    fluxfix_ext ex_minimize (1%float, 0.5%float) ex_table2 h0 = Ok (v, h1) ∧
    v_filedata v = ex_table2 ∧
    h1 !! v_newflux v = Some nf ∧ h1 !! v_newerr v = Some ne.
Proof.
  apply (fluxfix_writes_last_only ex_minimize ex_heap2 (1%float, 0.5%float)
           [ex_table] ex_table2 None).
  - exact ex_minimize_returns.
  - repeat constructor; [exact ex_wf_table|exact ex_wf_table2].
  - exact ex_columns_apart.
Defined.

(** A file of two extensions whose error columns hold 5: the first is
    written with the 5 it was read with, though its corrected error was
    computed; the second with its corrected error, 0.5. *)
Example fluxfix_example :
  match fluxfix_file ex_minimize (1%float, 0.5%float) [ex_table; ex_table2]
          None (ex_heap_err5 ++ ex_heap_err5) with
  | Ok (_, out, _) =>
      Some ((λ d, nth 0 (nth 0 (rows (d_error d)) []) 0%float) <$> out)
  | Raise _ => None
  end = Some [5%float; 0.5%float].
Proof. vm_compute. reflexivity. Qed.

(** * Further properties of the code *)

(** ** Interpolation inside the grid *)

Section InterpolationInside.
Context {F : Type} `{ArithOrder F}.

Local Abbreviation zero := (of_int 0%Z).

(** A query above sample [i] and not above sample [i+1] of an increasing
    grid is found at position [i+1]. *)
Lemma searchsorted_between (xs : list F) i q :
  ascending xs → S i < length xs →
  fltb (nth i xs zero) q = true → fltb (nth (S i) xs zero) q = false →
  searchsorted xs q = S i.
Proof.
  revert i. induction xs as [|a t IH]; intros i Hasc Hi Hlo Hhi.
  { simpl in Hi. lia. }
  pose proof (fltb_number_r _ _ Hlo) as Hq.
  destruct i as [|i].
  - simpl in Hlo. simpl. rewrite (np_less_lt _ _ Hlo).
    destruct t as [|b t]; [simpl in Hi; lia|].
    simpl in Hhi. simpl. unfold np_less. by rewrite Hhi, Hq.
  - simpl in Hi, Hlo, Hhi.
    assert (Ha : fltb a q = true).
    { pose proof (chain_all fltb a t fltb_trans Hasc) as Hall.
      rewrite Forall_forall in Hall.
      apply (fltb_trans a (nth i t zero) q); [|done].
      apply Hall. apply list_elem_of_In, nth_In. lia. }
    simpl. rewrite (np_less_lt _ _ Ha). f_equal.
    apply IH; try done; [by apply chain_tail in Hasc|lia].
Qed.

Lemma interp_call_between (f : interp F) i q :
  ascending (ix f) → S i < length (ix f) →
  fltb (nth i (ix f) zero) q = true →
  fltb (nth (S i) (ix f) zero) q = false →
  interp_call f q =
  line_at (nth i (ix f) zero) (nth i (iy f) zero)
          (nth (S i) (ix f) zero) (nth (S i) (iy f) zero) q.
Proof.
  intros Hasc Hi Hlo Hhi. unfold interp_call.
  rewrite (searchsorted_between _ i q) by done.
  replace (clip (S i) 1 (length (ix f) - 1)) with (S i) by (unfold clip; lia).
  by replace (S i - 1) with i by lia.
Qed.


(** X2: a strictly decreasing grid gives the interpolant of the reversed
    arrays: [interp1d] sorts its samples. *)
Theorem interp1d_reversed (x y : list F) :
  length y = length x → descending x →
  interp1d x y = interp1d (reverse x) (reverse y).
Proof.
  intros Hl Hdesc. unfold interp1d.
  rewrite !length_reverse.
  destruct (negb (length x =? length y)); [done|].
  destruct (length x <? 2); [done|]. f_equal.
  destruct (mk_interp_monotonic x y Hl) as [_ Hrev].
  destruct (Hrev Hdesc) as [Hix Hiy].
  assert (Hl' : length (reverse y) = length (reverse x))
    by (by rewrite !length_reverse).
  destruct (mk_interp_monotonic (reverse x) (reverse y) Hl') as [Hkeep _].
  destruct (Hkeep (chain_reverse fltb x Hdesc)) as [Hix' Hiy'].
  destruct (mk_interp x y) as [a b], (mk_interp (reverse x) (reverse y)) as [c d].
  simpl in *. congruence.
Qed.

End InterpolationInside.


Lemma interp1d_reversed_witness :
  interp1d [4; 2; 1]%float [15; 20; 10]%float =
  interp1d (reverse [4; 2; 1]%float) (reverse [15; 20; 10]%float).
Proof.
  apply (interp1d_reversed [4; 2; 1]%float [15; 20; 10]%float).
  - reflexivity.
  - repeat split.
Defined.

(** ** Interpolation in exact arithmetic *)

Section ExactInterpolation.

Local Open Scope R_scope.

Lemma chain_adjacent {F} (R : F → F → bool) (xs : list F) i a b :
  chain R xs → xs !! i = Some a → xs !! S i = Some b → R a b = true.
Proof.
  revert i. induction xs as [|c t IH]; intros i Hc Ha Hb; [done|].
  destruct i as [|i].
  - injection Ha as ->. destruct t as [|d t]; [done|].
    injection Hb as ->. by destruct Hc.
  - apply (IH i); [by apply chain_tail in Hc|done|done].
Qed.

Lemma exact_fltb_true (a b : R) : fltb a b = true ↔ a < b.
Proof. simpl. destruct (Rlt_dec a b); split; done. Qed.

Lemma exact_fltb_refl (a : R) : fltb a a = false.
Proof. simpl. destruct (Rlt_dec a a); [lra|done]. Qed.

(** On an increasing grid the interpolant returns each sample at its own
    position. *)
Lemma exact_node_ascending (f : interp R) k xk yk :
  ascending (ix f) → length (iy f) = length (ix f) →
  (2 ≤ length (ix f))%nat →
  ix f !! k = Some xk → iy f !! k = Some yk →
  interp_call f xk = yk.
Proof.
  intros Hasc Hl Hn Hx Hy.
  destruct k as [|k].
  - unfold interp_call.
    assert (Hs : searchsorted (ix f) xk = 0%nat).
    { destruct (ix f) as [|a t]; [done|]. injection Hx as ->.
      simpl. rewrite exact_np_less. destruct (Rlt_dec xk xk); [lra|done]. }
    rewrite Hs.
    replace (clip 0 1 (length (ix f) - 1)) with 1%nat by (unfold clip; lia).
    simpl. rewrite (nth_lookup_Some _ _ 0 _ Hx), (nth_lookup_Some _ _ 0 _ Hy).
    unfold line_at. simpl. unfold Rdiv. ring.
  - pose proof (lookup_lt_Some _ _ _ Hx) as Hk.
    destruct (lookup_lt_is_Some_2 (ix f) k) as [x' Hx']; [lia|].
    destruct (lookup_lt_is_Some_2 (iy f) k) as [y' Hy']; [lia|].
    pose proof (chain_adjacent fltb _ _ _ _ Hasc Hx' Hx) as Hlt.
    rewrite (interp_call_between f k xk); try done.
    + rewrite (nth_lookup_Some _ _ (of_int 0%Z) _ Hx),
        (nth_lookup_Some _ _ (of_int 0%Z) _ Hy),
        (nth_lookup_Some _ _ (of_int 0%Z) _ Hx'),
        (nth_lookup_Some _ _ (of_int 0%Z) _ Hy').
      apply exact_fltb_true in Hlt.
      unfold line_at. simpl. field. lra.
    + by rewrite (nth_lookup_Some _ _ (of_int 0%Z) _ Hx').
    + rewrite (nth_lookup_Some _ _ (of_int 0%Z) _ Hx). apply exact_fltb_refl.
Qed.

(** X3: in exact arithmetic the interpolant of a strictly monotonic grid
    passes through every sample: evaluated at [x[k]] it returns [y[k]]. *)
Theorem exact_interp1d_through_samples (x y : list R) k xk yk :
  length y = length x → (2 ≤ length x)%nat →
  ascending x ∨ descending x →
  x !! k = Some xk → y !! k = Some yk →
  ∃ f, interp1d x y = Ok f ∧ interp_call f xk = yk.
Proof.
  intros Hl Hn Hm Hx Hy. exists (mk_interp x y).
  split; [by apply interp1d_ok|].
  pose proof (mk_interp_ascending x y Hl Hm) as Hasc.
  destruct (mk_interp_monotonic x y Hl) as [Hkeep Hrev].
  pose proof (lookup_lt_Some _ _ _ Hx) as Hk.
  destruct Hm as [Hm|Hm].
  - destruct (Hkeep Hm) as [Hix Hiy].
    apply (exact_node_ascending _ k); rewrite ?Hix, ?Hiy; done.
  - destruct (Hrev Hm) as [Hix Hiy].
    assert (Hxr : ix (mk_interp x y) !! (length x - S k)%nat = Some xk).
    { rewrite Hix, reverse_lookup by lia.
      by replace (length x - S (length x - S k))%nat with k by lia. }
    assert (Hyr : iy (mk_interp x y) !! (length x - S k)%nat = Some yk).
    { rewrite Hiy, reverse_lookup by lia.
      by replace (length y - S (length x - S k))%nat with k by lia. }
    apply (exact_node_ascending _ (length x - S k)); try done.
    + by rewrite Hix, Hiy, !length_reverse.
    + by rewrite Hix, length_reverse.
Qed.

End ExactInterpolation.

Lemma exact_interp1d_through_samples_witness :
  ∃ f, interp1d [1; 2; 4]%R [10; 20; 15]%R = Ok f ∧
       interp_call f 2%R = 20%R.
Proof.
  apply (exact_interp1d_through_samples [1; 2; 4]%R [10; 20; 15]%R 1).
  - reflexivity.
  - simpl. lia.
  - left. repeat split; simpl; destruct (Rlt_dec _ _); done || lra.
  - reflexivity.
  - reflexivity.
Defined.

(** ** residcalc: sizes, few orders, a negative trim *)

Section ResidcalcMore.
Context {F : Type} `{Arith F}.

Local Abbreviation zero := (of_int 0%Z).

(** X4: on a well-shaped exposure of [n >= 1] orders and a trim that is
    not negative [residcalc] raises nothing and returns one residual and
    one error for each of the [n - 1] pairs of adjacent orders. *)
Theorem residcalc_lengths h filedata fl er (wavelength flux err : ndarray F)
  n p ntrim :
  residcalc_reads h filedata fl er wavelength flux err →
  has_shape n p wavelength → has_shape n p flux → has_shape n p err →
  2 ≤ p → (0 ≤ ntrim)%Z → 1 ≤ n →
  ∃ rs es,
    residcalc filedata fl er ntrim h = Ok ((rs, es), h) ∧
    length rs = n - 1 ∧ length es = n - 1.
Proof.
  intros Hreads Hw Hf He Hp Hnt Hn.
  destruct (residcalc_arrays_at wavelength flux err n p ntrim)
    as (rs & es & Hrun & Lr & Le & _); try done.
  exists rs, es. by rewrite (residcalc_run _ _ _ _ _ _ _ _ Hreads), Hrun.
Qed.

(** X5: a flux array without rows makes line 105 raise [ValueError]; with a
    single order no row is read and both results are empty, whatever the
    arrays hold and whatever the trim. *)
Theorem residcalc_few_orders h filedata fl er (wavelength flux err : ndarray F)
  ntrim :
  residcalc_reads h filedata fl er wavelength flux err →
  (length (rows flux) = 0 →
   residcalc filedata fl er ntrim h = Raise ValueError) ∧
  (length (rows flux) = 1 →
   residcalc filedata fl er ntrim h = Ok (([], []), h)).
Proof.
  intros Hreads. rewrite (residcalc_run _ _ _ _ _ _ _ _ Hreads).
  unfold residcalc_arrays, np_shape. simpl.
  split; intros ->; reflexivity.
Qed.

Lemma py_getitem_cases {A} (a : list A) i :
  py_getitem a i = Raise IndexError ∨ ∃ x, py_getitem a i = Ok x.
Proof.
  unfold py_getitem.
  destruct (_ && _)%bool; [|by left].
  destruct (a !! _); [right; eauto|by left].
Qed.

Lemma py_getitem_end {A} (a : list A) :
  py_getitem a (Z.of_nat (length a)) = Raise IndexError.
Proof.
  unfold py_getitem.
  replace (Z.of_nat (length a) <? 0)%Z with false
    by (symmetry; apply Z.ltb_ge; lia).
  rewrite Z.ltb_irrefl. by rewrite andb_false_r.
Qed.

(** A counted loop whose turns raise nothing but [IndexError], and one of
    whose turns does raise, raises [IndexError]. *)
Lemma for_range_raises {St} count start (body : Z → St → res St) s k :
  (∀ i s, body i s = Raise IndexError ∨ ∃ s', body i s = Ok s') →
  k < count →
  (∀ s, body (start + Z.of_nat k)%Z s = Raise IndexError) →
  for_range count start body s = Raise IndexError.
Proof.
  intros Hcases. revert start s k.
  induction count as [|count IH]; intros start s k Hk Hraise; [lia|].
  cbn [for_range].
  destruct (Hcases start s) as [E|[s' E]]; rewrite E; [done|].
  rewrite res_bind_Ok.
  destruct k as [|k].
  - specialize (Hraise s). simpl in Hraise. rewrite Z.add_0_r in Hraise.
    congruence.
  - apply (IH _ _ k); [lia|]. intros s0.
    replace (start + 1 + Z.of_nat k)%Z with (start + Z.of_nat (S k))%Z by lia.
    apply Hraise.
Qed.

Lemma sum_step_cases (f0 f1 g0 g1 : list F) i s :
  sum_step f0 f1 g0 g1 i s = Raise IndexError ∨
  ∃ s', sum_step f0 f1 g0 g1 i s = Ok s'.
Proof.
  unfold sum_step.
  destruct (py_getitem_cases f0 i) as [->|[a ->]]; [by left|].
  destruct (py_getitem_cases f1 i) as [->|[b ->]]; [by left|].
  destruct (py_getitem_cases g0 i) as [->|[c ->]]; [by left|].
  destruct (py_getitem_cases g1 i) as [->|[d ->]]; [by left|].
  right. eauto.
Qed.

(** With a negative trim the loop of lines 121-127 runs past the end of
    the overlap. *)
Lemma trimmed_sums_negative (f0 f1 g0 g1 : list F) ntrim :
  (ntrim < 0)%Z →
  trimmed_sums (length f0) f0 f1 g0 g1 ntrim = Raise IndexError.
Proof.
  intros Hnt. unfold trimmed_sums.
  apply (for_range_raises _ _ _ _ (Z.to_nat (Z.of_nat (length f0) - ntrim))).
  - apply sum_step_cases.
  - lia.
  - intros s.
    replace (ntrim + Z.of_nat (Z.to_nat (Z.of_nat (length f0) - ntrim)))%Z
      with (Z.of_nat (length f0)) by lia.
    unfold sum_step. by rewrite py_getitem_end.
Qed.

(** X6: with a negative [ntrim] and at least two orders [residcalc] raises
    [IndexError] on every well-shaped exposure: the index runs from
    [ntrim], through the negative indices, past the last overlap pixel. *)
Theorem residcalc_negative_ntrim h filedata fl er
  (wavelength flux err : ndarray F) n p ntrim :
  residcalc_reads h filedata fl er wavelength flux err →
  has_shape n p wavelength → has_shape n p flux → has_shape n p err →
  2 ≤ p → 2 ≤ n → (ntrim < 0)%Z →
  residcalc filedata fl er ntrim h = Raise IndexError.
Proof.
  intros Hreads Hw Hf He Hp Hn Hnt.
  rewrite (residcalc_run _ _ _ _ _ _ _ _ Hreads).
  destruct (has_shape_row _ _ _ 0 Hw) as (w0 & Hw0 & Lw0); [lia|].
  destruct (has_shape_row _ _ _ (0 + 1) Hw) as (w1 & Hw1 & Lw1); [lia|].
  destruct (has_shape_row _ _ _ 0 Hf) as (f0r & Hf0 & Lf0); [lia|].
  destruct (has_shape_row _ _ _ (0 + 1) Hf) as (f1r & Hf1 & Lf1); [lia|].
  destruct (has_shape_row _ _ _ 0 He) as (e0r & He0 & Le0); [lia|].
  destruct (has_shape_row _ _ _ (0 + 1) He) as (e1r & He1 & Le1); [lia|].
  assert (Hsums : pair_sums wavelength flux err ntrim 0 = Raise IndexError).
  { rewrite (pair_sums_eq _ _ _ ntrim 0 w0 w1 f0r f1r e0r e1r
               (List.last w1 zero)) by (done || lia).
    match goal with
    | |- trimmed_sums ?m ?a _ _ _ _ = _ =>
        replace m with (length a) by (by rewrite length_fmap)
    end.
    by apply trimmed_sums_negative. }
  unfold residcalc_arrays, np_shape. simpl.
  destruct Hf as (Ln & _). rewrite Ln.
  replace (n =? 0) with false by (symmetry; apply Nat.eqb_neq; lia).
  destruct n as [|[|n]]; [lia|lia|].
  simpl. unfold resid_order. by rewrite Hsums.
Qed.

End ResidcalcMore.

Lemma residcalc_lengths_witness :
  ∃ rs es,
    residcalc ex_table None None 5 ex_heap = Ok ((rs, es), ex_heap) ∧
    length rs = 2 - 1 ∧ length es = 2 - 1.
Proof.
  apply (residcalc_lengths ex_heap ex_table None None ex_wave ex_flux ex_err
           2 12 5).
  - repeat split.
  - exact ex_wave_shape.
  - exact (ex_shape 2 1).
  - exact (ex_shape 0.5 0.5).
  - lia.
  - lia.
  - lia.
Defined.

Lemma residcalc_few_orders_witness :
  let none := {| ncols := 1; rows := [] |} in
  let one := {| ncols := 1; rows := [[1%float]] |} in
  residcalc ex_table None None 5 [none; none; none] = Raise ValueError ∧
  residcalc ex_table None None 5 [one; one; one] =
    Ok (([], []), [one; one; one]).
Proof.
  intros none one. split.
  - refine (proj1 (residcalc_few_orders [none; none; none] ex_table None None
                     none none none 5 _) _); [repeat split|reflexivity].
  - refine (proj2 (residcalc_few_orders [one; one; one] ex_table None None
                     one one one 5 _) _); [repeat split|reflexivity].
Defined.

Lemma residcalc_negative_ntrim_witness :
  residcalc ex_table None None (-1) ex_heap = Raise IndexError.
Proof.
  apply (residcalc_negative_ntrim ex_heap ex_table None None
           ex_wave ex_flux ex_err 2 12 (-1)).
  - repeat split.
  - exact ex_wave_shape.
  - exact (ex_shape 2 1).
  - exact (ex_shape 0.5 0.5).
  - lia.
  - lia.
  - lia.
Defined.

(** ** residfunc and findshift *)

Section ObjectiveProps.
Context {F : Type} `{Arith F}.


(** X8: [findshift] raises what the minimizer raises, and [TypeError] at
    line 251 when the fit comes back without a standard error for [a] or
    for [b]; it returns in no such case. *)
Theorem findshift_raises
  (minimize : (params F → res (list F)) → params F → res (params F))
  filedata guess iterate (h : list (ndarray F)) :
  (∀ e, minimize (objective (int_arange (nrows filedata)) filedata h)
          (start_params guess iterate) = Raise e →
        findshift minimize filedata guess iterate h = Raise e) ∧
  (∀ min, minimize (objective (int_arange (nrows filedata)) filedata h)
            (start_params guess iterate) = Ok min →
          stderr (par_a min) = None ∨ stderr (par_b min) = None →
          findshift minimize filedata guess iterate h = Raise TypeError).
Proof.
  split.
  - intros e Hmin. unfold findshift. by rewrite Hmin.
  - intros min Hmin Hnone. unfold findshift. rewrite Hmin, res_bind_Ok. simpl.
    destruct Hnone as [->| ->]; [done|]. by destruct (stderr (par_a min)).
Qed.

End ObjectiveProps.


Lemma findshift_raises_witness :
  (∀ e, ex_minimize_bare (objective (int_arange (nrows ex_table)) ex_table ex_heap)
          (start_params (1%float, 0.5%float) true) = Raise e →
        findshift ex_minimize_bare ex_table (1%float, 0.5%float) true ex_heap =
        Raise e) ∧
  (∀ min, ex_minimize_bare (objective (int_arange (nrows ex_table)) ex_table ex_heap)
            (start_params (1%float, 0.5%float) true) = Ok min →
          stderr (par_a min) = None ∨ stderr (par_b min) = None →
          findshift ex_minimize_bare ex_table (1%float, 0.5%float) true ex_heap =
          Raise TypeError).
Proof.
  apply (findshift_raises ex_minimize_bare ex_table (1%float, 0.5%float) true
           ex_heap).
Defined.

(** Without standard errors the call raises. *)
Example findshift_raises_example :
  findshift ex_minimize_bare ex_table (1%float, 0.5%float) true ex_heap =
  Raise TypeError.
Proof. reflexivity. Qed.

(** ** fluxcorrect: a short shift vector *)

Section FluxcorrectMore.
Context {F : Type} `{Arith F}.
Implicit Types h : list (ndarray F).

(** The loop of lines 76-79 over the orders that have a shift. *)
Lemma m_for_shift_prefix h (ob : ndarray F) pixshift count k :
  wf_array ob → count = 0 ∨ 2 ≤ ncols ob →
  k + count ≤ length (rows ob) → k + count ≤ length pixshift →
  let T := rows (shifted_blaze ob pixshift) in
  let Z := rows (np_zeros (F:=F) (np_shape ob)) in
  m_for count k
    (shift_order (length h) (S (length h)) (np_arange (ncols ob)) pixshift)
    (h ++ [ob; {| ncols := ncols ob; rows := take k T ++ drop k Z |}]) =
  Ok ((), h ++ [ob; {| ncols := ncols ob;
                       rows := take (k + count) T ++ drop (k + count) Z |}]).
Proof.
  intros Hwf Hp Hn Hps T Z.
  assert (LT : length T = length (rows ob) `min` length pixshift).
  { unfold T, shifted_blaze. simpl. by rewrite length_zip_with. }
  assert (LZ : length Z = length (rows ob)).
  { unfold Z, np_zeros. simpl. by rewrite length_replicate. }
  revert k Hn Hps. induction count as [|count IH]; intros k Hn Hps.
  - simpl. unfold mret, M_ret. by rewrite Nat.add_0_r.
  - destruct Hp as [|Hp]; [done|].
    destruct (lookup_lt_is_Some_2 (rows ob) k) as [row Hrow]; [lia|].
    destruct (lookup_lt_is_Some_2 pixshift k) as [s Hs]; [lia|].
    destruct (lookup_lt_is_Some_2 Z k) as [z Hz]; [lia|].
    assert (HT : T !! k = Some (shift_row (np_arange (ncols ob)) row s)).
    { unfold T, shifted_blaze. simpl. rewrite lookup_zip_with, Hrow. simpl.
      by rewrite Hs. }
    assert (Hstep :
      shift_order (length h) (S (length h)) (np_arange (ncols ob)) pixshift k
        (h ++ [ob; {| ncols := ncols ob; rows := take k T ++ drop k Z |}]) =
      Ok ((), h ++ [ob; {| ncols := ncols ob;
                           rows := take (S k) T ++ drop (S k) Z |}])).
    { rewrite (shift_order_run h ob _ _ pixshift k row s Hrow Hs).
      - simpl. do 4 f_equal.
        rewrite (take_S_r _ _ _ HT), (drop_S _ _ _ Hz), <- app_assoc.
        rewrite insert_app_r_alt by (rewrite length_take; lia).
        rewrite length_take, LT.
        by replace (k - k `min` (length (rows ob) `min` length pixshift))
          with 0 by lia.
      - rewrite np_arange_length.
        by apply (Forall_lookup_1 _ _ _ _ Hwf Hrow).
      - by rewrite np_arange_length.
      - simpl. rewrite length_app, length_take, length_drop. lia.
      - simpl. by rewrite np_arange_length. }
    cbn [m_for]. rewrite (M_bind_run _ _ _ _ _ Hstep).
    rewrite (IH (or_intror Hp) (S k)) by lia.
    by replace (S k + count) with (k + S count) by lia.
Qed.

(** A loop whose turn [k + a] raises, after [a] turns that return. *)
Lemma m_for_raises (body : nat → M F unit) a b k h h1 e :
  m_for a k body h = Ok ((), h1) →
  body (k + a) h1 = Raise e →
  m_for (a + S b) k body h = Raise e.
Proof.
  revert k h. induction a as [|a IH]; intros k h Hrun Hraise.
  - injection Hrun as <-. rewrite Nat.add_0_r in Hraise.
    simpl. by rewrite (M_bind_raise _ _ _ _ Hraise).
  - cbn [m_for] in Hrun. simpl. unfold mbind, M_bind in *.
    destruct (body k h) as [[[] h0]|e0]; [|done].
    apply IH; [done|]. by replace (S k + a) with (k + S a) by lia.
Qed.

(** X9: a shift vector with fewer entries than the exposure has orders
    makes [fluxcorrect] raise [IndexError], at the first order without a
    shift. *)
Theorem fluxcorrect_short_pixshift h filedata pixshift
  (net flux : ndarray F) n p :
  h !! c_net filedata = Some net →
  h !! c_flux filedata = Some flux →
  has_shape n p net → has_shape n p flux →
  2 ≤ p → length pixshift < n →
  fluxcorrect filedata pixshift h = Raise IndexError.
Proof.
  intros Hnet Hflux Snet Sflux Hp Hps.
  pose proof (divided_shape _ _ _ _ Snet Sflux) as Sob.
  set (ob := divided net flux) in *.
  destruct Sob as (Lob & Pob & Wob).
  unfold fluxcorrect.
  rewrite (M_bind_run _ _ _ _ _ (load_run _ _ _ Hnet)).
  rewrite (M_bind_run _ _ _ _ _ (load_run _ _ _ Hflux)).
  rewrite (M_bind_run _ _ _ _ _
             (lift_run _ _ _ (np_divide_run _ _ _ _ Snet Sflux))).
  fold ob.
  rewrite (M_bind_run _ _ _ _ _ (alloc_run _ _)).
  rewrite (M_bind_run _ _ _ _ _ (alloc_run _ _)).
  rewrite <- app_assoc. simpl app.
  replace (length (h ++ [ob])) with (S (length h))
    by (rewrite length_app; simpl; lia).
  apply M_bind_raise.
  set (L := length pixshift) in *.
  set (T := rows (shifted_blaze ob pixshift)).
  set (Z := rows (np_zeros (F:=F) (np_shape ob))).
  assert (Hpre :
    m_for L 0
      (shift_order (length h) (S (length h)) (np_arange (np_shape ob).2)
         pixshift)
      (h ++ [ob; np_zeros (np_shape ob)]) =
    Ok ((), h ++ [ob; {| ncols := ncols ob;
                         rows := take (0 + L) T ++ drop (0 + L) Z |}]))
    by (apply (m_for_shift_prefix h ob pixshift L 0 Wob); lia).
  replace (np_shape ob).1 with (L + S (n - L - 1))
    by (unfold np_shape; cbn [fst]; lia).
  apply (m_for_raises _ _ _ _ _ _ _ Hpre).
  destruct (lookup_lt_is_Some_2 (rows ob) L) as [row Hrow]; [lia|].
  unfold shift_order.
  assert (Hob : ∀ nb, (h ++ [ob; nb]) !! length h = Some ob).
  { intros nb. rewrite lookup_app_r by lia. by rewrite Nat.sub_diag. }
  rewrite (M_bind_run _ _ _ _ _ (load_run _ _ _ (Hob _))).
  rewrite (M_bind_run _ _ _ _ _ (lift_run _ _ _ (getrow_lookup _ _ _ Hrow))).
  assert (Hint : interp1d (np_arange (np_shape ob).2) row =
                 Ok (mk_interp (np_arange (np_shape ob).2) row)).
  { apply interp1d_ok; rewrite np_arange_length; unfold np_shape; cbn [snd].
    - by apply (Forall_lookup_1 _ _ _ _ Wob Hrow).
    - lia. }
  rewrite (M_bind_run _ _ _ _ _ (lift_run _ _ _ Hint)).
  apply M_bind_raise. simpl. unfold L. by rewrite py_getitem_end.
Qed.

End FluxcorrectMore.

Lemma fluxcorrect_short_pixshift_witness :
  fluxcorrect ex_table [1%float] ex_heap = Raise IndexError.
Proof.
  apply (fluxcorrect_short_pixshift ex_heap ex_table [1%float]
           ex_net ex_flux 2 12).
  - reflexivity.
  - reflexivity.
  - exact (ex_shape 4 2).
  - exact (ex_shape 2 1).
  - lia.
  - simpl. lia.
Defined.

(** ** fluxcorrect in exact arithmetic: a flat blaze, the relative error *)

Section ExactFluxcorrect.

Local Open Scope R_scope.

Lemma exact_interp_flat (f : interp R) c q :
  (2 ≤ length (ix f))%nat → iy f = replicate (length (ix f)) c →
  interp_call f q = c.
Proof.
  intros Hn Hiy. unfold interp_call.
  set (i := clip (searchsorted (ix f) q) 1 (length (ix f) - 1)).
  assert (Hi : (1 ≤ i ≤ length (ix f) - 1)%nat) by (unfold i, clip; lia).
  rewrite Hiy.
  rewrite (nth_lookup_Some (replicate (length (ix f)) c) (i - 1) (of_int 0%Z) c)
    by (apply lookup_replicate_2; lia).
  rewrite (nth_lookup_Some (replicate (length (ix f)) c) i (of_int 0%Z) c)
    by (apply lookup_replicate_2; lia).
  unfold line_at. simpl. unfold Rdiv. ring.
Qed.

(** A constant row of the blaze is constant after any shift. *)
Lemma exact_shift_row_flat p c s :
  (2 ≤ p)%nat → shift_row (np_arange p) (replicate p c) s = replicate p c.
Proof.
  intros Hp. unfold shift_row.
  assert (Lar : length (replicate p c) = length (np_arange (F:=R) p))
    by (by rewrite length_replicate, np_arange_length).
  destruct (mk_interp_monotonic (np_arange p) (replicate p c) Lar)
    as [Hkeep _].
  destruct (Hkeep (exact_arange_ascending p)) as [Hix Hiy].
  apply list_eq. intros k. rewrite list_lookup_fmap.
  destruct (decide (k < p)%nat) as [Hk|Hk].
  - rewrite exact_arange_lookup, lookup_replicate_2 by done.
    apply fmap_Some. eexists. split; [reflexivity|]. symmetry.
    apply exact_interp_flat; rewrite Hix, np_arange_length; [lia|done].
  - rewrite (lookup_ge_None_2 (np_arange p))
      by (rewrite np_arange_length; lia).
    symmetry. apply lookup_replicate_None. lia.
Qed.

(** X10: in exact arithmetic, where the blaze [net / flux] is constant
    along every order, [fluxcorrect] returns the flux array itself for any
    shift vector, and [net_error / (net / flux)] as error array: shifting a
    flat blaze changes nothing. *)
Theorem exact_fluxcorrect_flat_blaze (h : list (ndarray R)) filedata pixshift
  (net flux net_error : ndarray R) n p :
  h !! c_net filedata = Some net →
  h !! c_flux filedata = Some flux →
  h !! c_net_error filedata = Some net_error →
  has_shape n p net → has_shape n p flux → has_shape n p net_error →
  (n ≤ length pixshift)%nat → (2 ≤ p)%nat →
  nowhere_zero net → nowhere_zero flux →
  (∀ i row, rows (divided net flux) !! i = Some row →
            ∃ c, row = replicate p c) →
  ∃ newflux newerr h',
    fluxcorrect filedata pixshift h = Ok ((newflux, newerr), h') ∧
    h' !! newflux = Some flux ∧
    h' !! newerr = Some (divided net_error (divided net flux)).
Proof.
  intros Hnet Hflux Hne Snet Sflux Sne Hps Hp Zn Zf Hflat.
  destruct (fluxcorrect_arrays h filedata pixshift net flux net_error n p)
    as (h' & Hrun & Hnf & Hnerr & _); try done; [by right|].
  exists (length h + 2)%nat, (length h + 3)%nat, h'. split; [done|].
  assert (Hsame : shifted_blaze (divided net flux) pixshift = divided net flux).
  { pose proof (divided_shape _ _ _ _ Snet Sflux) as (Lob & Pob & _).
    unfold shifted_blaze. destruct (divided net flux) as [c rs] eqn:E.
    simpl in *. f_equal. subst c.
    apply list_eq. intros i. rewrite lookup_zip_with.
    destruct (rs !! i) as [row|] eqn:Hrow; [|done]. simpl.
    pose proof (lookup_lt_Some _ _ _ Hrow) as Hi.
    destruct (lookup_lt_is_Some_2 pixshift i) as [s Hs]; [lia|].
    rewrite Hs. simpl. f_equal.
    destruct (Hflat i row Hrow) as [c ->].
    by apply exact_shift_row_flat. }
  cbv zeta in Hnf, Hnerr. rewrite Hsame in Hnf, Hnerr.
  rewrite (exact_divide_back net flux n p) in Hnf by done.
  split; [exact Hnf|exact Hnerr].
Qed.





End ExactFluxcorrect.

Lemma exact_fluxcorrect_flat_blaze_witness :
  ∃ newflux newerr h',
    fluxcorrect rx_table [0.75%R] rx_heap_flat = Ok ((newflux, newerr), h') ∧
    h' !! newflux = Some (rx_row 1 2) ∧
    h' !! newerr =
      Some (divided (rx_row 1 1) (divided (rx_row 2 4) (rx_row 1 2))).
Proof.
  apply (exact_fluxcorrect_flat_blaze rx_heap_flat rx_table [0.75%R]
           (rx_row 2 4) (rx_row 1 2) (rx_row 1 1) 1 2).
  - reflexivity.
  - reflexivity.
  - reflexivity.
  - exact (rx_shape 2 4).
  - exact (rx_shape 1 2).
  - exact (rx_shape 1 1).
  - simpl. lia.
  - lia.
  - apply rx_nowhere_zero; lra.
  - apply rx_nowhere_zero; lra.
  - intros [|i] row; simpl; [|done]. intros [= <-]. exists 2%R.
    simpl. f_equal; [lra|]. f_equal. lra.
Defined.


(** ** datamask: which pixels the index holds *)

Section Datamask.

Local Open Scope Z_scope.

Lemma land_pow2_pow2 (k1 k2 : Z) :
  0 ≤ k1 → 0 ≤ k2 → k1 ≠ k2 → Z.land (2 ^ k1) (2 ^ k2) = 0.
Proof.
  intros H1 H2 Hne. apply Z.bits_inj'. intros n Hn.
  rewrite Z.land_spec, !Z.pow2_bits_eqb, Z.bits_0 by done.
  destruct (Z.eqb_spec k1 n), (Z.eqb_spec k2 n); simpl; try done. lia.
Qed.

Lemma land_pow2_testbit (d k : Z) :
  0 ≤ k → Z.land d (2 ^ k) ≠ 0 ↔ Z.testbit d k = true.
Proof.
  intros Hk. split.
  - intros Hne. destruct (Z.testbit d k) eqn:E; [done|].
    exfalso. apply Hne. apply Z.bits_inj'. intros n Hn.
    rewrite Z.land_spec, Z.pow2_bits_eqb, Z.bits_0 by done.
    destruct (Z.eqb_spec k n) as [<-|]; [by rewrite E|apply andb_false_r].
  - intros Hb Hz.
    assert (Hbit : Z.testbit (Z.land d (2 ^ k)) k = true).
    { rewrite Z.land_spec, Hb, Z.pow2_bits_true by done. done. }
    rewrite Hz, Z.bits_0 in Hbit. done.
Qed.

(** A non-negative [s] shares a bit with [d] exactly when the bitwise and
    is not zero. *)
Lemma land_nonzero_bit (d s : Z) :
  0 ≤ s →
  Z.land d s ≠ 0 ↔ ∃ k, 0 ≤ k ∧ Z.testbit d k = true ∧ Z.testbit s k = true.
Proof.
  intros Hs. split.
  - intros Hne.
    assert (Hpos : 0 < Z.land d s).
    { assert (0 ≤ Z.land d s) by (apply Z.land_nonneg; by right). lia. }
    exists (Z.log2 (Z.land d s)). split; [apply Z.log2_nonneg|].
    pose proof (Z.bit_log2 _ Hpos) as Hb.
    rewrite Z.land_spec in Hb. by apply andb_true_iff in Hb.
  - intros (k & Hk & Hd & Hsk) Hz.
    assert (Hbit : Z.testbit (Z.land d s) k = true)
      by (by rewrite Z.land_spec, Hd, Hsk).
    rewrite Hz, Z.bits_0 in Hbit. done.
Qed.

(** Adding up distinct one-bit flags sets exactly their bits. *)
Lemma fold_add_flags_bits (flags : list Z) (acc : Z) :
  Forall is_flag flags → NoDup flags →
  0 ≤ acc → (∀ f, f ∈ flags → Z.land acc f = 0) →
  0 ≤ fold_left Z.add flags acc ∧
  ∀ k, 0 ≤ k →
    (Z.testbit (fold_left Z.add flags acc) k = true ↔
     Z.testbit acc k = true ∨ 2 ^ k ∈ flags).
Proof.
  intros Hfl. revert acc. induction Hfl as [|f flags [kf [Hkf ->]] Hfl' IH];
    intros acc Hnd Hacc Hdisj.
  - simpl. split; [done|]. intros k Hk. rewrite elem_of_nil. tauto.
  - apply NoDup_cons in Hnd as [Hnotin Hnd].
    simpl fold_left.
    assert (Hadd : acc + 2 ^ kf = Z.lor acc (2 ^ kf)).
    { apply Z.add_nocarry_lor. apply Hdisj. by left. }
    destruct (IH (acc + 2 ^ kf)) as [Hnn Hbits]; try done.
    + rewrite Hadd. apply Z.lor_nonneg. split; [done|].
      apply Z.pow_nonneg. lia.
    + intros g Hg. rewrite Hadd, Z.land_lor_distr_l.
      rewrite (Hdisj g) by (by right). simpl.
      rewrite Forall_forall in Hfl'. destruct (Hfl' g Hg) as (kg & Hkg & ->).
      apply land_pow2_pow2; try done. intros ->. done.
    + split; [done|]. intros k Hk. rewrite (Hbits k Hk).
      rewrite Hadd, Z.lor_spec, orb_true_iff, Z.pow2_bits_eqb by done.
      rewrite elem_of_cons. split.
      * intros [[Ha|He]|Hin]; [by left| |by right; right].
        apply Z.eqb_eq in He as ->. right. by left.
      * intros [Ha|[He|Hin]]; [by left; left| |by right].
        left. right. apply Z.eqb_eq.
        apply (Z.pow_inj_r 2) in He; lia.
Qed.

Lemma badflags_bits (flags : list Z) :
  Forall is_flag flags → NoDup flags →
  0 ≤ badflags_of flags ∧
  ∀ k, 0 ≤ k → (Z.testbit (badflags_of flags) k = true ↔ 2 ^ k ∈ flags).
Proof.
  intros Hfl Hnd.
  destruct (fold_add_flags_bits flags 0 Hfl Hnd) as [Hnn Hbits]; [done| |].
  { intros f _. apply Z.land_0_l. }
  split; [done|]. intros k Hk. unfold badflags_of. rewrite (Hbits k Hk).
  rewrite Z.bits_0. split; [by intros [|]|by right].
Qed.

Lemma np_where_spec (r : list bool) j :
  j ∈ np_where r ↔ r !! j = Some true.
Proof.
  unfold np_where. rewrite where_from_filter, list_elem_of_filter, elem_of_seq.
  rewrite Nat.sub_0_r. split; [by intros [? _]|].
  intros Hj. split; [done|]. apply lookup_lt_Some in Hj. lia.
Qed.

Lemma where2_from_spec (c : list (list bool)) i0 i j :
  (i, j) ∈ where2_from i0 c ↔
  (i0 ≤ i)%nat ∧ ∃ r, c !! (i - i0)%nat = Some r ∧ r !! j = Some true.
Proof.
  revert i0. induction c as [|r c IH]; intros i0; simpl.
  - rewrite elem_of_nil. split; [done|]. by intros (_ & r & ? & _).
  - rewrite elem_of_app, list_elem_of_fmap, IH. split.
    + intros [(j' & [= -> ->] & Hj)|(Hle & r' & Hr' & Hj)].
      * split; [lia|]. exists r. rewrite Nat.sub_diag.
        split; [done|]. by apply np_where_spec.
      * split; [lia|]. exists r'. split; [|done].
        by replace (i - i0)%nat with (S (i - S i0)) by lia.
    + intros (Hle & r' & Hr' & Hj).
      destruct (decide (i = i0)) as [->|Hne].
      * left. exists j. rewrite Nat.sub_diag in Hr'. injection Hr' as ->.
        split; [done|]. by apply np_where_spec.
      * right. split; [lia|]. exists r'. split; [|done].
        by replace (i - i0)%nat with (S (i - S i0)) in Hr' by lia.
Qed.

(** X12: for flags that are single bits, no flag twice, the index of line
    57 holds exactly the pixels whose data-quality value has at least one
    of the flags set. *)
Theorem datamask_index_spec (dq : list (list Z)) (flags : list Z) i j :
  Forall is_flag flags → NoDup flags →
  (i, j) ∈ datamask_index dq flags ↔
  ∃ row d, dq !! i = Some row ∧ row !! j = Some d ∧
           ∃ f, f ∈ flags ∧ Z.land d f ≠ 0.
Proof.
  intros Hfl Hnd. destruct (badflags_bits flags Hfl Hnd) as [Hnn Hbits].
  assert (Hsel : ∀ d, negb (Z.land d (badflags_of flags) =? 0) = true ↔
                      ∃ f, f ∈ flags ∧ Z.land d f ≠ 0).
  { intros d. rewrite negb_true_iff, Z.eqb_neq, (land_nonzero_bit d _ Hnn).
    split.
    - intros (k & Hk & Hd & Hs). exists (2 ^ k). split; [by apply Hbits|].
      by apply land_pow2_testbit.
    - intros (f & Hf & Hne). rewrite Forall_forall in Hfl.
      destruct (Hfl f Hf) as (k & Hk & ->). exists k.
      split; [done|]. split; [by apply land_pow2_testbit|by apply Hbits]. }
  unfold datamask_index. rewrite where2_from_spec, Nat.sub_0_r.
  rewrite list_lookup_fmap. split.
  - intros (_ & r & Hr & Hj).
    destruct (dq !! i) as [row|] eqn:Hrow; [|done].
    injection Hr as <-. rewrite list_lookup_fmap in Hj.
    destruct (row !! j) as [d|] eqn:Hd; [|done].
    exists row, d. do 2 (split; [done|]). apply Hsel.
    simpl in Hj. congruence.
  - intros (row & d & Hrow & Hd & Hf). split; [lia|].
    rewrite Hrow. simpl. eexists. split; [done|].
    rewrite list_lookup_fmap, Hd. simpl. f_equal. by apply Hsel.
Qed.


End Datamask.

Lemma datamask_index_spec_witness :
  (1, 2)%nat ∈ datamask_index [[0; 32; 96]; [64; 1; 33]]%Z default_flags ↔
  ∃ row d, [[0; 32; 96]; [64; 1; 33]]%Z !! 1%nat = Some row ∧
           row !! 2%nat = Some d ∧
           ∃ f, f ∈ default_flags ∧ Z.land d f ≠ 0%Z.
Proof.
  apply (datamask_index_spec [[0; 32; 96]; [64; 1; 33]]%Z default_flags 1 2).
  - repeat constructor; [by exists 5%Z|by exists 6%Z].
  - apply NoDup_ListNoDup. repeat constructor; simpl; lia.
Defined.


(** The default flags on a small array: the pixels flagged 32 or 64. *)
Example datamask_index_example :
  datamask_index [[0; 32; 96]; [64; 1; 33]]%Z default_flags =
  [(0, 1); (0, 2); (1, 0); (1, 2)].
Proof. reflexivity. Qed.

(** ** generateplot: the pixels drawn *)

(** X14: for a trim that is not negative the spectrum panels draw each
    order without its first [ntrim] and without its last [ntrim + 1]
    pixels: the slice [ntrim:-(ntrim+1)] of lines 174 and 183. *)
Theorem plotted_pixels_spec {A} (ntrim : Z) (row : list A) :
  (0 ≤ ntrim)%Z →
  plotted_pixels ntrim row =
  take (length row - (2 * Z.to_nat ntrim + 1)) (drop (Z.to_nat ntrim) row).
Proof.
  intros Hnt. unfold plotted_pixels, py_slice, slice_bound.
  replace (ntrim <? 0)%Z with false by (symmetry; apply Z.ltb_ge; lia).
  replace (- (ntrim + 1) <? 0)%Z with true by (symmetry; apply Z.ltb_lt; lia).
  destruct (decide (Z.to_nat ntrim ≤ length row)) as [Hle|Hgt].
  - replace (Z.to_nat (Z.max ntrim 0 `min` Z.of_nat (length row)))
      with (Z.to_nat ntrim) by lia.
    f_equal. lia.
  - replace (Z.to_nat (Z.max ntrim 0 `min` Z.of_nat (length row)))
      with (length row) by lia.
    rewrite !drop_ge by lia. by rewrite !take_nil.
Qed.

Lemma plotted_pixels_spec_witness :
  plotted_pixels 2 [0; 1; 2; 3; 4; 5; 6; 7]%Z =
  take (length [0; 1; 2; 3; 4; 5; 6; 7]%Z - (2 * Z.to_nat 2 + 1))
    (drop (Z.to_nat 2) [0; 1; 2; 3; 4; 5; 6; 7]%Z).
Proof.
  apply (plotted_pixels_spec 2 [0; 1; 2; 3; 4; 5; 6; 7]%Z). lia.
Defined.

(** Of eight pixels and a trim of two, pixels 2, 3 and 4 are drawn. *)
Example plotted_pixels_example :
  plotted_pixels 2 [0; 1; 2; 3; 4; 5; 6; 7]%Z = [2; 3; 4]%Z.
Proof. reflexivity. Qed.

(** ** fluxfix over several files *)

Section FluxfixFiles.
Context {F : Type} `{Arith F}.
Variable minimize : (params F → res (list F)) → params F → res (params F).
Implicit Types (h : list (ndarray F)) (t : table).

(** One file: what is written, and which arrays the heap still holds
    afterwards. *)
Lemma fluxfix_file_run h guess front lastt vars :
  fit_returns minimize →
  Forall (wf_table h) (front ++ [lastt]) →
  NoDup (concat (columns <$> (front ++ [lastt]))) →
  ∃ v out h',
    fluxfix_file minimize guess (front ++ [lastt]) vars h =
      Ok ((Some v, out), h') ∧
    last_only h (front ++ [lastt]) out ∧
    ∀ l x, h !! l = Some x → l ≠ c_flux lastt → l ≠ c_error lastt →
           h' !! l = Some x.
Proof.
  intros Hfit Hwf Hnd.
  destruct (ext_loop_run minimize h guess front lastt vars Hfit Hwf)
    as (e0 & a & b & nf & ne & d & p & Hloop & _ & Hd & Sf & Se & Snf & Sne).
  set (L := length (h ++ e0)) in *.
  set (h1 := (h ++ e0) ++ [a; b; nf; ne]) in *.
  set (cf := c_flux lastt). set (ce := c_error lastt).
  set (h2 := <[cf := nf]> h1). set (h3 := <[ce := ne]> h2).
  pose proof Hd as Hcols.
  apply snapshot_Some in Hcols as (Hw & Hf & He & Hn & Hne).
  assert (Hpre : ∀ l x, h !! l = Some x → h1 !! l = Some x).
  { intros l x Hl. unfold h1. by do 2 apply lookup_app_l_Some. }
  assert (HL : length h ≤ L) by (unfold L; rewrite length_app; lia).
  assert (Hnf : h1 !! (L + 2) = Some nf).
  { unfold h1. rewrite lookup_app_r by (unfold L; lia).
    by replace (L + 2 - length (h ++ e0)) with 2 by (unfold L; lia). }
  assert (Hnerr : h1 !! (L + 3) = Some ne).
  { unfold h1. rewrite lookup_app_r by (unfold L; lia).
    by replace (L + 3 - length (h ++ e0)) with 3 by (unfold L; lia). }
  rewrite fmap_app, concat_app in Hnd. simpl in Hnd. rewrite ?app_nil_r in Hnd.
  apply NoDup_app in Hnd as (_ & Hdisj & Hndl).
  assert (Hfe : cf ≠ ce).
  { unfold columns in Hndl. rewrite !NoDup_cons in Hndl.
    destruct Hndl as (_ & Hcf & _). intros Heq. apply Hcf.
    unfold cf, ce in Heq. rewrite Heq. by left. }
  assert (Hcf_lt : cf < length h) by (by apply lookup_lt_Some in Hf).
  assert (Hce_lt : ce < length h) by (by apply lookup_lt_Some in He).
  assert (Hkeep : ∀ l x, h !! l = Some x → l ≠ cf → l ≠ ce → h3 !! l = Some x).
  { intros l x Hl Hcf Hce. unfold h3, h2.
    rewrite !list_lookup_insert_ne by done. by apply Hpre. }
  assert (Hfront : ∃ ds,
    Forall2 (λ t d, snapshot h t = Some d ∧ snapshot h3 t = Some d) front ds).
  { apply Forall_app in Hwf as [Hwf _].
    apply (snapshots_kept h h3 front cf ce Hkeep Hwf).
    intros t Ht c Hc.
    assert (Hni : c ∉ columns lastt).
    { apply Hdisj. apply elem_of_concat.
      exists (columns t). split; [done|].
      apply list_elem_of_fmap. by exists t. }
    split; intros ->; apply Hni; unfold columns, cf, ce;
      rewrite !elem_of_cons; auto 10. }
  destruct Hfront as [ds Hds].
  assert (Hh3f : h3 !! cf = Some nf).
  { unfold h3, h2. rewrite list_lookup_insert_ne by done.
    apply list_lookup_insert_eq. unfold h1. rewrite !length_app. lia. }
  assert (Hh3e : h3 !! ce = Some ne).
  { unfold h3. apply list_lookup_insert_eq. unfold h2.
    rewrite length_insert. unfold h1. rewrite !length_app. lia. }
  assert (Hlastw : snapshot h3 lastt = Some (with_flux_error d nf ne)).
  { unfold columns in Hndl. rewrite !NoDup_cons in Hndl.
    rewrite !elem_of_cons in Hndl.
    apply snapshot_Some. simpl. fold cf ce.
    repeat split; try done; apply Hkeep; try done; unfold cf, ce;
      intros Heq; rewrite Heq in Hndl; tauto. }
  assert (Hout : writeto (front ++ [lastt]) h3 =
                 Ok (ds ++ [with_flux_error d nf ne], h3)).
  { apply writeto_run. apply Forall2_app.
    - eapply Forall2_impl; [exact Hds|]. by intros t dt [_ ?].
    - by constructor. }
  pose proof (Forall2_length _ _ _ Hds) as Hlen.
  exists {| v_filedata := lastt; v_newflux := L + 2; v_newerr := L + 3 |},
    (ds ++ [with_flux_error d nf ne]), h3.
  split; [|split; [|exact Hkeep]].
  - unfold fluxfix_file.
    rewrite (M_bind_run _ _ _ _ _ Hloop).
    rewrite (M_bind_run _ _ _ _ _ (load_run _ _ _ Hnf)).
    rewrite (M_bind_run _ _ _ _ _
               (assign_column_run h1 cf _ nf _ p (Hpre _ _ Hf) Sf Snf)).
    fold h2.
    assert (Hnerr2 : h2 !! (L + 3) = Some ne).
    { unfold h2. rewrite list_lookup_insert_ne by lia. done. }
    rewrite (M_bind_run _ _ _ _ _ (load_run _ _ _ Hnerr2)).
    assert (He2 : h2 !! ce = Some (d_error d)).
    { unfold h2. rewrite list_lookup_insert_ne by done. by apply Hpre. }
    rewrite (M_bind_run _ _ _ _ _
               (assign_column_run h2 ce _ ne _ p He2 Se Sne)).
    fold h3. by rewrite (M_bind_run _ _ _ _ _ Hout).
  - unfold last_only. rewrite !length_app. simpl. split; [lia|]. split.
    + intros k t Hk Ht.
      rewrite lookup_app_l in Ht by lia.
      rewrite lookup_app_l by lia.
      destruct (Forall2_lookup_l _ _ _ _ _ Hds Ht) as (dt & -> & Hdt & _).
      by rewrite Hdt.
    + intros t. rewrite last_snoc. intros [= <-].
      exists d, nf, ne. split; [done|].
      rewrite lookup_app_r by lia.
      by replace (length front + 1 - 1 - length ds) with 0 by lia.
Qed.

(** A table none of whose columns is overwritten reads as before. *)
Lemma snapshot_kept h h' t (cf ce : loc) :
  (∀ l x, h !! l = Some x → l ≠ cf → l ≠ ce → h' !! l = Some x) →
  wf_table h t → (∀ c, c ∈ columns t → c ≠ cf ∧ c ≠ ce) →
  wf_table h' t ∧ snapshot h' t = snapshot h t.
Proof.
  intros Hkeep (d & p & Hd & Hrest) Hcols.
  assert (Hd' : snapshot h' t = Some d).
  { pose proof Hd as Hc.
    apply snapshot_Some in Hc as (H1 & H2 & H3 & H4 & H5).
    assert (Hcol : ∀ c x, c ∈ columns t → h !! c = Some x → h' !! c = Some x).
    { intros c x Hc Hx. destruct (Hcols c Hc). by apply Hkeep. }
    apply snapshot_Some.
    repeat split; apply Hcol; try done;
      unfold columns; rewrite !elem_of_cons; auto 10. }
  split; [by exists d, p|by rewrite Hd, Hd'].
Qed.

Lemma last_only_heap h h0 exts out :
  (∀ t, t ∈ exts → snapshot h t = snapshot h0 t) →
  last_only h exts out → last_only h0 exts out.
Proof.
  intros Hsame (Hlen & Hfront & Hlast). split; [done|]. split.
  - intros k t Hk Ht. rewrite (Hfront k t Hk Ht).
    apply Hsame. by apply list_elem_of_lookup_2 in Ht.
  - intros t Ht. destruct (Hlast t Ht) as (d & nf & ne & Hd & Hout).
    exists d, nf, ne. split; [|done]. rewrite <- Hsame; [done|].
    apply last_Some in Ht as [l' ->]. apply elem_of_app. right. by left.
Qed.

(** The files one after the other; [h0] is the heap before the first
    file. *)
Lemma fluxfix_files_run guess files : ∀ h h0 vars,
  fit_returns minimize →
  Forall (λ exts, exts ≠ []) files →
  Forall (wf_table h) (concat files) →
  NoDup (concat (columns <$> concat files)) →
  (∀ t, t ∈ concat files → snapshot h t = snapshot h0 t) →
  ∃ outs h',
    fluxfix_files minimize guess files vars h = Ok (outs, h') ∧
    Forall2 (last_only h0) files outs.
Proof.
  induction files as [|exts rest IH]; intros h h0 vars Hfit Hne Hwf Hnd Hsame.
  { exists [], h. by split. }
  apply Forall_cons in Hne as [Hexts Hne].
  destruct (exists_last Hexts) as (front & lastt & ->).
  simpl concat in *.
  apply Forall_app in Hwf as [Hwf1 Hwf2].
  rewrite fmap_app, concat_app in Hnd.
  apply NoDup_app in Hnd as (Hnd1 & Hdisj & Hnd2).
  destruct (fluxfix_file_run h guess front lastt vars Hfit Hwf1 Hnd1)
    as (v & out & h1 & Hrun & Hout & Hkeep).
  assert (Hrest : ∀ t, t ∈ concat rest →
            wf_table h1 t ∧ snapshot h1 t = snapshot h t).
  { intros t Ht.
    apply (snapshot_kept h h1 t (c_flux lastt) (c_error lastt) Hkeep).
    - rewrite Forall_forall in Hwf2. by apply Hwf2.
    - intros c Hc.
      assert (Hin : c ∈ concat (columns <$> concat rest)).
      { apply elem_of_concat. exists (columns t). split; [done|].
        apply list_elem_of_fmap. by exists t. }
      assert (Hl : ∀ c', c' ∈ columns lastt → c ≠ c').
      { intros c' Hc' ->. apply (Hdisj c'); [|done].
        apply elem_of_concat. exists (columns lastt). split; [done|].
        apply list_elem_of_fmap. exists lastt. split; [done|].
        apply elem_of_app. right. by left. }
      split; apply Hl; unfold columns; rewrite !elem_of_cons; auto 10. }
  destruct (IH h1 h0 (Some v) Hfit Hne) as (outs & h' & Hruns & Houts).
  - apply Forall_forall. intros t Ht. by apply Hrest.
  - done.
  - intros t Ht. destruct (Hrest t Ht) as [_ ->]. apply Hsame.
    apply elem_of_app. by right.
  - exists (out :: outs), h'. split.
    + simpl fluxfix_files. rewrite (M_bind_run _ _ _ _ _ Hrun). cbn [fst snd].
      by rewrite (M_bind_run _ _ _ _ _ Hruns).
    + constructor; [|done].
      apply (last_only_heap h); [|done].
      intros t Ht. apply Hsame. apply elem_of_app. by left.
Qed.

(** X15: on files that each have a table extension, all extensions
    well-shaped and no two columns in one array, [fluxfix] raises nothing
    when the fits return, and writes one file for each file read: with as
    many extensions, every extension but the last as it was when the call
    began, and the last with new flux and error arrays only. Writing one
    file changes no extension of a later file. *)
Theorem fluxfix_files_last_only h files guess iterate :
  fit_returns minimize →
  Forall (λ exts, exts ≠ []) files →
  Forall (wf_table h) (concat files) →
  NoDup (concat (columns <$> concat files)) →
  ∃ outs h',
    fluxfix minimize files guess iterate h = Ok (outs, h') ∧
    Forall2 (last_only h) files outs.
Proof.
  intros Hfit Hne Hwf Hnd. unfold fluxfix.
  by apply fluxfix_files_run.
Qed.

End FluxfixFiles.

Lemma fluxfix_files_last_only_witness :
  ∃ outs h',
    fluxfix ex_minimize [[ex_table]; [ex_table2]] None true ex_heap2 =
      Ok (outs, h') ∧
    Forall2 (last_only ex_heap2) [[ex_table]; [ex_table2]] outs.
Proof.
  apply (fluxfix_files_last_only ex_minimize ex_heap2
           [[ex_table]; [ex_table2]] None true).
  - exact ex_minimize_returns.
  - by repeat constructor.
  - repeat constructor; [exact ex_wf_table|exact ex_wf_table2].
  - exact ex_columns_apart.
Defined.
